(** * compas_ags: graphic statics on form and force diagrams

    A shallow embedding of [compas_ags/ags/graphstatics.py] and
    [compas_ags/ags/constraints.py], and the properties of these two
    modules that the specification states.

    Conventions of the embedding.
    - A Python [float] (and a numpy [float64]) is a rational number [Q]:
      the arithmetic is exact, and the non-finite values (inf, nan) are
      outside of the model.  Square roots and angles, which leave the
      rationals, are parameters of the development.
    - A Python exception is a constructor of [exn]; a function that may
      raise returns in [result].
    - A Python [dict] is a [gmap]; a dict whose iteration order is used
      (the vertices and the edges of a diagram) is a list of pairs.
    - A numpy 2-d array is a [matrix]: its number of columns and the list
      of its rows.
    - An object that is mutated in place (a diagram and its attribute
      dicts) is passed in and returned. *)

From Stdlib Require Import QArith Qreduction.
From stdpp Require Import base option list gmap strings.

Open Scope Q_scope.
Open Scope nat_scope.

(** ** Exceptions and the error monad *)

Inductive exn : Set :=
| KeyError
| IndexError
| ValueError
| TypeError
| UnboundLocalError
| SingularSystemError
| UnderdeterminedSystemError
| InconsistentConstraintError.

Inductive result (A : Type) : Type :=
| Ok (a : A)
| Raise (e : exn).

Arguments Ok {A} a.
Arguments Raise {A} e.

#[global] Instance result_ret : MRet result := fun A a => Ok a.

#[global] Instance result_bind : MBind result := fun A B f m =>
  match m with
  | Ok a => f a
  | Raise e => Raise e
  end.

#[global] Instance result_fmap : FMap result := fun A B f m =>
  match m with
  | Ok a => Ok (f a)
  | Raise e => Raise e
  end.

(** [[f x for x in l]] where [f] may raise: the first exception wins. *)
Fixpoint mapM_result {A B : Type} (f : A -> result B) (l : list A) : result (list B) :=
  match l with
  | [] => Ok []
  | x :: l' => y ← f x; ys ← mapM_result f l'; Ok (y :: ys)
  end.

(** [d[k]] on a dict. *)
Definition getitem `{Countable K} {V : Type} (d : gmap K V) (k : K) : result V :=
  match d !! k with
  | Some v => Ok v
  | None => Raise KeyError
  end.

(** [l[i]] on a list or on the first axis of an array. *)
Definition index {A : Type} (l : list A) (i : nat) : result A :=
  match l !! i with
  | Some x => Ok x
  | None => Raise IndexError
  end.

(** [raises_only P r]: [r] is a value, or an exception that satisfies [P]. *)
Definition raises_only {A : Type} (P : exn -> Prop) (r : result A) : Prop :=
  match r with
  | Ok _ => True
  | Raise e => P e
  end.

(** [list(enumerate(l))]. *)
Definition enumerate {A : Type} (l : list A) : list (nat * A) :=
  zip (seq 0 (length l)) l.

(** [{k: v for k, v in kvs}]: a later binding of a key replaces an earlier one. *)
Definition dict_of `{Countable K} {V : Type} (kvs : list (K * V)) : gmap K V :=
  foldl (fun d kv => <[kv.1 := kv.2]> d) ∅ kvs.

(** [list(set(range(n)) - set(xs))].  CPython lists a set in the order of its
    hash table: for small integers this is the increasing order in most
    cases, not in all ([n = 9] and [xs = [0, 2, 3, 4, 5, 6, 7]] give
    [[8, 1]]).  The model lists the elements in increasing order; where the
    order of such a list reaches a result, as with [nonpivots], the
    properties are stated up to the order. *)
Definition range_minus (n : nat) (xs : list nat) : list nat :=
  list_difference (seq 0 n) xs.

(** ** Arrays *)

Record matrix : Type := Mat { ncols : nat; rows : list (list Q) }.

Definition nrows (A : matrix) : nat := length (rows A).

Definition Qsum (l : list Q) : Q := foldr Qplus 0%Q l.

Definition dot_vec (u v : list Q) : Q := Qsum (zip_with Qmult u v).

Definition col (A : matrix) (j : nat) : list Q :=
  map (fun r => nth j r 0%Q) (rows A).

(** [A.transpose()] *)
Definition transpose (A : matrix) : matrix :=
  Mat (nrows A) (map (col A) (seq 0 (ncols A))).

(** [A.dot(B)]; numpy refuses operands whose inner dimensions differ. *)
Definition dot (A B : matrix) : result matrix :=
  if decide (ncols A = nrows B) then
    Ok (Mat (ncols B)
          (map (fun r => map (fun c => dot_vec r c) (rows (transpose B))) (rows A)))
  else Raise ValueError.

(** [diags([v], [0])] *)
Definition diags (v : list Q) : matrix :=
  Mat (length v)
      (imap (fun i x => map (fun j => if decide (i = j) then x else 0%Q)
                            (seq 0 (length v))) v).

(** [A[idx, :]] *)
Definition take_rows (A : matrix) (idx : list nat) : result matrix :=
  rs ← mapM_result (index (rows A)) idx; Ok (Mat (ncols A) rs).

(** [A[:, idx]] *)
Definition take_cols (A : matrix) (idx : list nat) : result matrix :=
  if decide (Forall (fun j => j < ncols A) idx) then
    Ok (Mat (length idx) (map (fun r => map (fun j => nth j r 0%Q) idx) (rows A)))
  else Raise IndexError.

(** [vstack((A, B))] *)
Definition vstack (A B : matrix) : result matrix :=
  if decide (ncols A = ncols B) then Ok (Mat (ncols A) (rows A ++ rows B))
  else Raise ValueError.

(** [-A] *)
Definition mat_opp (A : matrix) : matrix :=
  Mat (ncols A) (map (map Qopp) (rows A)).

(** [A - B] on arrays of one shape. *)
Definition mat_sub (A B : matrix) : result matrix :=
  if decide (ncols A = ncols B /\ nrows A = nrows B) then
    Ok (Mat (ncols A) (zip_with (zip_with Qminus) (rows A) (rows B)))
  else Raise ValueError.

(** An (n, 1) array from a list, and back. *)
Definition column (v : list Q) : matrix := Mat 1 (map (fun x => [x]) v).
Definition flatten (A : matrix) : list Q := col A 0.

(** ** The numerical library (compas.numerical)

    The source imports these functions from the compas library; they are
    modelled here on exact rationals. *)

Definition max_list (l : list nat) : nat := foldr Nat.max 0 l.

(** Modelled from the spec: compas.numerical.connectivity_matrix, which is
    not part of the sources.  Row [e] of the matrix of the edge [(i, j)] has
    -1 at column [i] and +1 at column [j].  The matrix is assembled from
    coordinate triplets, so that it has as many columns as the largest vertex
    index requires, the two entries of a loop add up, and an empty edge list
    is refused. *)
Definition connectivity_row (n : nat) (e : nat * nat) : list Q :=
  map (fun c =>
         if decide (c = e.1 /\ c = e.2) then 0%Q
         else if decide (c = e.1) then (-1)%Q
         else if decide (c = e.2) then 1%Q
         else 0%Q)
      (seq 0 n).

Definition connectivity_matrix (edges : list (nat * nat)) : result matrix :=
  match edges with
  | [] => Raise ValueError
  | _ => let n := S (max_list (map fst edges ++ map snd edges)) in
         Ok (Mat n (map (connectivity_row n) edges))
  end.

(** Modelled from the spec: compas.numerical.equilibrium_matrix, which is
    not part of the sources.  [E = [Ci^t U; Ci^t V]], with [U] and [V] the
    diagonal matrices of the coordinate differences of the edges and [Ci^t]
    the rows of the transposed connectivity matrix at the free vertices. *)
Definition equilibrium_matrix (C xy : matrix) (free : list nat) : result matrix :=
  uv ← dot C xy;
  let U := diags (col uv 0) in
  let V := diags (col uv 1) in
  let Ct := transpose C in
  Cti ← take_rows Ct free;
  EU ← dot Cti U;
  EV ← dot Cti V;
  vstack EU EV.

(** *** Row reduction *)

Definition Qnz (x : Q) : bool := negb (Qnum x =? 0)%Z.

Definition row_scale (c : Q) (r : list Q) : list Q :=
  map (fun x => Qred (c * x)) r.

(** [r - c * p] *)
Definition row_sub (c : Q) (p r : list Q) : list Q :=
  zip_with (fun x y => Qred (x - c * y)) r p.

(** The first row with a non-zero entry in column [j], and the other rows. *)
Fixpoint split_pivot (j : nat) (todo : list (list Q)) : option (list Q * list (list Q)) :=
  match todo with
  | [] => None
  | r :: todo' =>
      if Qnz (nth j r 0%Q) then Some (r, todo')
      else match split_pivot j todo' with
           | Some (p, rest) => Some (p, r :: rest)
           | None => None
           end
  end.

(** Gauss-Jordan elimination over the columns [j, j+1, ..., j+n-1]: [done]
    holds the pivot rows found so far, [todo] the rows without a pivot. *)
Fixpoint rref_from (n j : nat) (done todo : list (list Q)) : list (list Q) :=
  match n with
  | 0 => done ++ todo
  | S n' =>
      match split_pivot j todo with
      | None => rref_from n' (S j) done todo
      | Some (p, rest) =>
          let p' := row_scale (/ nth j p 0%Q) p in
          let elim r := row_sub (nth j r 0%Q) p' r in
          rref_from n' (S j) (map elim done ++ [p']) (map elim rest)
      end
  end.

(** Modelled from the spec: compas.numerical.rref_sympy, which is not part
    of the sources: the reduced row-echelon form of a matrix, the pivot of a
    column being taken in the first row that has one. *)
Definition rref (A : matrix) : matrix :=
  Mat (ncols A) (rref_from (ncols A) 0 [] (rows A)).

Fixpoint first_nonzero (j : nat) (r : list Q) : option nat :=
  match r with
  | [] => None
  | x :: r' => if Qnz x then Some j else first_nonzero (S j) r'
  end.

(** Modelled from the spec: compas.numerical.pivots and nonpivots, which are
    not part of the sources: the column of the first non-zero entry of every
    non-zero row of an echelon matrix, and the other columns. *)
Definition pivots (U : matrix) : list nat := omap (first_nonzero 0) (rows U).

Definition nonpivots (U : matrix) : list nat := range_minus (ncols U) (pivots U).

Definition rank (A : matrix) : nat := length (pivots (rref A)).

(** Modelled from the spec: compas.numerical.dof, which is not part of the
    sources: [k = ncols(E) - rank(E)] and [m = nrows(E) - rank(E)]. *)
Definition dof (A : matrix) : Z * Z :=
  (Z.of_nat (ncols A) - Z.of_nat (rank A), Z.of_nat (nrows A) - Z.of_nat (rank A))%Z.

(** *** Linear solves *)

(** [hstack((A, b))] for a column [b]. *)
Definition augment (A : matrix) (b : list Q) : matrix :=
  Mat (S (ncols A)) (zip_with (fun r x => r ++ [x]) (rows A) b).

(** The least-squares solution of [A x = b] by the normal equations
    [A^t A x = A^t b], which is the solution of [A x = b] when [A] is square
    and regular; a singular system is refused. *)
Definition lstsq (A : matrix) (b : list Q) : result (list Q) :=
  let At := transpose A in
  AtA ← dot At A;
  Atb ← dot At (column b);
  let R := rref (augment AtA (flatten Atb)) in
  if decide (pivots R = seq 0 (ncols A)) then
    Ok (map (fun r => nth (ncols A) r 0%Q) (take (ncols A) (rows R)))
  else Raise SingularSystemError.

(** [x[idx] = vals] on a one-dimensional array. *)
Definition scatter {A : Type} (x : list A) (idx : list nat) (vals : list A) : list A :=
  foldl (fun x iv => <[iv.1 := iv.2]> x) x (zip idx vals).

(** Modelled from the spec: compas_ags.ags.core.update_q_from_qind, which is
    not part of the sources.  The equilibrium condition
    [E_dep q_dep + E_ind q_ind = 0] is solved for [q_dep], by a linear solve
    with a least-squares fallback, and [q] is overwritten at the dependent
    indices; a singular dependent block is refused. *)
Definition update_q_from_qind (E : matrix) (q : list Q) (dep ind : list nat)
  : result (list Q) :=
  qi ← mapM_result (index q) ind;
  Ei ← take_cols E ind;
  Ed ← take_cols E dep;
  b ← dot Ei (column qi);
  qd ← lstsq (mat_opp Ed) (flatten b);
  Ok (scatter q dep qd).

(** ** Diagrams (compas_ags.diagrams)

    The diagram classes are not part of the sources; the graph statics
    functions use them through the read and write interface below. *)

(** Modelled from the spec: the attributes of a vertex, a position and the
    [is_fixed] flag (the FormDiagram and ForceDiagram classes are missing). *)
Record vertex_attr : Type := VertexAttr {
  v_x : Q;
  v_y : Q;
  is_fixed : bool
}.

(** Modelled from the spec: the attributes of an edge, the force density
    [q], the force [f], the length [l], the angle deviation [a] and the
    flags [is_edge] (structural or auxiliary) and [is_ind] (independent). *)
Record edge_attr : Type := EdgeAttr {
  e_q : Q;
  e_f : Q;
  e_l : Q;
  e_a : Q;
  is_edge : bool;
  is_ind : bool
}.

(** Modelled from the spec: a form diagram, the dict of its vertices and
    the dict of its edges, both in insertion order. *)
Record FormDiagram : Type := Form {
  form_vertex : list (nat * vertex_attr);
  form_edge : list ((nat * nat) * edge_attr)
}.

(** Modelled from the spec: a force diagram, with its anchor vertex.  Its
    edges are kept in the order of their counterparts in the form diagram. *)
Record ForceDiagram : Type := Force {
  force_vertex : list (nat * vertex_attr);
  force_edge : list ((nat * nat) * edge_attr);
  force_anchor : nat
}.

(** Modelled from the spec: the stable identifier to index mapping. *)
Definition key_index_of (vertex : list (nat * vertex_attr)) : gmap nat nat :=
  dict_of (map (fun ik => (ik.2.1, ik.1)) (enumerate vertex)).

(** Modelled from the spec: the edge to index mapping; both directions of
    an edge map to its index. *)
Definition uv_index_of (edge : list ((nat * nat) * edge_attr)) : gmap (nat * nat) nat :=
  dict_of (flat_map (fun ie => [(ie.2.1, ie.1); ((ie.2.1.2, ie.2.1.1), ie.1)])
                    (enumerate edge)).

(** Modelled from the spec: neighbor lookup by vertex identifier. *)
Definition neighbors_of (edge : list ((nat * nat) * edge_attr)) (k : nat) : list nat :=
  flat_map (fun e => (if decide (e.1.1 = k) then [e.1.2] else [])
                     ++ (if decide (e.1.2 = k) then [e.1.1] else [])) edge.

Definition xy_of (vertex : list (nat * vertex_attr)) : matrix :=
  Mat 2 (map (fun kv => [v_x kv.2; v_y kv.2]) vertex).

Module FormDiagram.
Definition key_index (form : FormDiagram) : gmap nat nat := key_index_of (form_vertex form).
Definition uv_index (form : FormDiagram) : gmap (nat * nat) nat := uv_index_of (form_edge form).
Definition vertices (form : FormDiagram) : list nat := map fst (form_vertex form).
Definition edges (form : FormDiagram) : list (nat * nat) := map fst (form_edge form).
Definition number_of_vertices (form : FormDiagram) : nat := length (form_vertex form).
Definition number_of_edges (form : FormDiagram) : nat := length (form_edge form).
Definition vertex_neighbors (form : FormDiagram) (k : nat) : list nat :=
  neighbors_of (form_edge form) k.
(** The fixed vertices (supports). *)
Definition fixed (form : FormDiagram) : list nat :=
  map fst (filter (fun kv => is_fixed kv.2 = true) (form_vertex form)).
(** The leaves: the vertices of degree one. *)
Definition leaves (form : FormDiagram) : list nat :=
  filter (fun k => length (vertex_neighbors form k) = 1) (vertices form).
(** The independent edges. *)
Definition ind (form : FormDiagram) : list (nat * nat) :=
  map fst (filter (fun ke => is_ind ke.2 = true) (form_edge form)).
Definition xy (form : FormDiagram) : matrix := xy_of (form_vertex form).
Definition q (form : FormDiagram) : list Q := map (fun ke => e_q ke.2) (form_edge form).
End FormDiagram.

Module ForceDiagram.
Definition key_index (force : ForceDiagram) : gmap nat nat := key_index_of (force_vertex force).
Definition vertices (force : ForceDiagram) : list nat := map fst (force_vertex force).
Definition xy (force : ForceDiagram) : matrix := xy_of (force_vertex force).
Definition anchor (force : ForceDiagram) : nat := force_anchor force.
(** The edges as pairs of vertex indices, aligned with the edges of [form]. *)
Definition ordered_edges (force : ForceDiagram) (form : FormDiagram) : result (list (nat * nat)) :=
  let k_i := key_index force in
  mapM_result (fun uv => i ← getitem k_i uv.1; j ← getitem k_i uv.2; Ok (i, j))
              (map fst (force_edge force)).
End ForceDiagram.

(** [attr['x'] = x; attr['y'] = y] *)
Definition set_xy (attr : vertex_attr) (x y : Q) : vertex_attr :=
  {| v_x := x; v_y := y; is_fixed := is_fixed attr |}.

(** [attr['q'] = q; attr['f'] = f; attr['l'] = l] *)
Definition set_qfl (attr : edge_attr) (q f l : Q) : edge_attr :=
  {| e_q := q; e_f := f; e_l := l; e_a := e_a attr;
     is_edge := is_edge attr; is_ind := is_ind attr |}.

(** [attr['l'] = l; attr['a'] = a] *)
Definition set_la (attr : edge_attr) (l a : Q) : edge_attr :=
  {| e_q := e_q attr; e_f := e_f attr; e_l := l; e_a := a;
     is_edge := is_edge attr; is_ind := is_ind attr |}.

(** [attr['f'] = f; attr['q'] = q] *)
Definition set_fq (attr : edge_attr) (f q : Q) : edge_attr :=
  {| e_q := q; e_f := f; e_l := e_l attr; e_a := e_a attr;
     is_edge := is_edge attr; is_ind := is_ind attr |}.

(** ** Local variables of a Python function

    A name that is assigned somewhere in the body of a function is a local
    variable of the function in all of its body; reading it before its first
    assignment raises [UnboundLocalError]. *)

Inductive pyobj : Type :=
| FormData (data : FormDiagram)
| ForceData (data : ForceDiagram)
| FormObj (form : FormDiagram)
| ForceObj (force : ForceDiagram).

Definition frame : Type := gmap string pyobj.

(** The frame at the entry of a call: the parameters are bound. *)
Definition enter (params : list (string * pyobj)) : frame := dict_of params.

Definition load (fr : frame) (name : string) : result pyobj :=
  match fr !! name with
  | Some o => Ok o
  | None => Raise UnboundLocalError
  end.

Definition store (fr : frame) (name : string) (o : pyobj) : frame :=
  <[name := o]> fr.

(** Modelled from the spec: [from_data] and [to_data] of the diagram classes,
    which are not part of the sources, marshal a diagram by value. *)
Definition FormDiagram_from_data (o : pyobj) : result FormDiagram :=
  match o with
  | FormData data => Ok data
  | _ => Raise TypeError
  end.

Definition ForceDiagram_from_data (o : pyobj) : result ForceDiagram :=
  match o with
  | ForceData data => Ok data
  | _ => Raise TypeError
  end.

Definition as_form (o : pyobj) : result FormDiagram :=
  match o with
  | FormObj form => Ok form
  | _ => Raise TypeError
  end.

Definition as_force (o : pyobj) : result ForceDiagram :=
  match o with
  | ForceObj force => Ok force
  | _ => Raise TypeError
  end.

(** ** Graphic statics (compas_ags/ags/graphstatics.py) *)

(** [[(k_i[u], k_i[v]) for u, v in edges]] *)
Definition edge_indices (k_i : gmap nat nat) (edges : list (nat * nat))
  : result (list (nat * nat)) :=
  mapM_result (fun uv => i ← getitem k_i uv.1; j ← getitem k_i uv.2; Ok (i, j)) edges.

(** [x / y] on two (n, 1) arrays, with numpy's broadcasting of a (1, 1) array.
    The quotient is exact, and a zero divisor gives 0 where numpy stores inf
    or nan: what is stated of a quotient is stated for a divisor that is not
    zero, and as the quotient itself, not as a product. *)
Definition broadcast_div (x y : list Q) : result (list Q) :=
  if decide (length x = length y) then Ok (zip_with Qdiv x y)
  else match x, y with
       | [x0], _ => Ok (map (fun y0 => x0 / y0)%Q y)
       | _, [y0] => Ok (map (fun x0 => x0 / y0)%Q x)
       | _, _ => Raise ValueError
       end.

(** [x < y] on floats. *)
Definition Qltb (x y : Q) : bool :=
  (Qnum x * QDen y <? Qnum y * QDen x)%Z.

Section Graphstatics.

(** numpy's square root on floats. *)
Variable sqrt : Q -> Q.

(** compas.geometry.angle_vectors_xy with [deg=True]: the angle between two
    vectors, in degrees. *)
Variable angle_vectors_xy : list Q -> list Q -> Q.

(** scipy's sparse solver, which returns an array for every system. *)
Variable spsolve : matrix -> matrix -> matrix.

(** compas_ags.ags.core.update_form_from_force, which is not part of the
    sources: the relaxation of the free vertices of the form diagram.  It
    overwrites the array [xy]; here it returns it. *)
Variable update_form_from_force :
  matrix -> matrix -> list nat -> list nat -> gmap nat (list nat) ->
  gmap (nat * nat) nat -> matrix -> nat -> result matrix.

(** Modelled from the spec: compas.numerical.normrow, which is not part of
    the sources: the Euclidean length of every row. *)
Definition length_vector (r : list Q) : Q :=
  sqrt (Qsum (map (fun x => x * x)%Q r)).

Definition normrow (A : matrix) : list Q := map length_vector (rows A).

(** Modelled from the spec: compas.numerical.spsolve_with_known, which is
    not part of the sources: the rows of [x] at [known] are substituted in
    [A x = b], the remaining system is solved once, and the solution is
    stored in the other rows of [x]. *)
Definition spsolve_with_known (A b x : matrix) (known : list nat) : result matrix :=
  let unknown := range_minus (nrows x) known in
  Au ← take_rows A unknown;
  A11 ← take_cols Au unknown;
  A12 ← take_cols Au known;
  bu ← take_rows b unknown;
  xk ← take_rows x known;
  A12xk ← dot A12 xk;
  b' ← mat_sub bu A12xk;
  let sol := spsolve A11 b' in
  if decide (nrows sol = length unknown /\ Forall (fun r => length r = ncols x) (rows sol))
  then Ok (Mat (ncols x) (scatter (rows x) unknown (rows sol)))
  else Raise ValueError.

Definition form_identify_dof (form : FormDiagram)
  : result (Z * Z * list (nat * nat)) :=
  let k_i := FormDiagram.key_index form in
  let xy := FormDiagram.xy form in
  fixed ← mapM_result (getitem k_i) (FormDiagram.fixed form);
  let free := range_minus (length (form_vertex form)) fixed in
  edges ← edge_indices k_i (FormDiagram.edges form);
  C ← connectivity_matrix edges;
  E ← equilibrium_matrix C xy free;
  let '(k, m) := dof E in
  let ind := nonpivots (rref E) in
  ind_edges ← mapM_result (index edges) ind;
  Ok (k, m, ind_edges).

Definition form_count_dof (form : FormDiagram) : result (Z * Z) :=
  let k_i := FormDiagram.key_index form in
  let xy := FormDiagram.xy form in
  fixed ← mapM_result (getitem k_i) (FormDiagram.fixed form);
  let free := range_minus (length (form_vertex form)) fixed in
  edges ← edge_indices k_i (FormDiagram.edges form);
  C ← connectivity_matrix edges;
  E ← equilibrium_matrix C xy free;
  let '(k, m) := dof E in
  Ok (k, m).

(** The loop over [form.edges_where({'is_edge': True}, True)]: the
    attribute dict of every structural edge is written; the other edges are
    not visited. *)
Definition write_qfl (uv_index : gmap (nat * nat) nat) (q f l : list Q)
    (ke : (nat * nat) * edge_attr) : result ((nat * nat) * edge_attr) :=
  if is_edge ke.2 then
    i ← getitem uv_index ke.1;
    qi ← index q i;
    fi ← index f i;
    li ← index l i;
    Ok (ke.1, set_qfl ke.2 qi fi li)
  else Ok ke.

Definition form_update_q_from_qind (form : FormDiagram) : result FormDiagram :=
  let k_i := FormDiagram.key_index form in
  let uv_index := FormDiagram.uv_index form in
  let vcount := FormDiagram.number_of_vertices form in
  let ecount := FormDiagram.number_of_edges form in
  let fixed := FormDiagram.leaves form in
  fixed ← mapM_result (getitem k_i) fixed;
  let free := range_minus vcount fixed in
  ind ← mapM_result (getitem uv_index) (FormDiagram.ind form);
  let dep := range_minus ecount ind in
  edges ← edge_indices k_i (FormDiagram.edges form);
  let xy := FormDiagram.xy form in
  let q := FormDiagram.q form in
  C ← connectivity_matrix edges;
  E ← equilibrium_matrix C xy free;
  q ← update_q_from_qind E q dep ind;
  uv ← dot C xy;
  let l := normrow uv in
  let f := zip_with Qmult q l in
  edge' ← mapM_result (write_qfl uv_index q f l) (form_edge form);
  Ok {| form_vertex := form_vertex form; form_edge := edge' |}.

(** The loop over [form.vertices(True)] of [form_update_from_force], and the
    loop over [force.vertices(True)] of [force_update_from_form]. *)
Definition write_xy (k_i : gmap nat nat) (xy : matrix)
    (kv : nat * vertex_attr) : result (nat * vertex_attr) :=
  i ← getitem k_i kv.1;
  r ← index (rows xy) i;
  x ← index r 0;
  y ← index r 1;
  Ok (kv.1, set_xy kv.2 x y).

(** The loop over [form.edges(True)] of [form_update_from_force]. *)
Definition write_form_edge (uv_e : gmap (nat * nat) nat) (l a _l q : list Q)
    (ke : (nat * nat) * edge_attr) : result ((nat * nat) * edge_attr) :=
  e ← getitem uv_e ke.1;
  le ← index l e;
  ae ← index a e;
  let attr := set_la ke.2 le ae in
  if Qltb ae 90 then
    _le ← index _l e;
    qe ← index q e;
    Ok (ke.1, set_fq attr _le qe)
  else
    _le ← index _l e;
    qe ← index q e;
    Ok (ke.1, set_fq attr (- _le)%Q (- qe)%Q).

(** The loop over [force.edges(True)] of [form_update_from_force]. *)
Definition write_force_edge (_uv_e : gmap (nat * nat) nat) (a _l : list Q)
    (ke : (nat * nat) * edge_attr) : result ((nat * nat) * edge_attr) :=
  e ← getitem _uv_e ke.1;
  ae ← index a e;
  _le ← index _l e;
  Ok (ke.1, {| e_q := e_q ke.2; e_f := e_f ke.2; e_l := _le; e_a := ae;
               is_edge := is_edge ke.2; is_ind := is_ind ke.2 |}).

Definition form_update_from_force (form : FormDiagram) (force : ForceDiagram)
    (kmax : nat) : result (FormDiagram * ForceDiagram) :=
  (* form diagram *)
  let k_i := FormDiagram.key_index form in
  i_j ← mapM_result
         (fun ik => ns ← mapM_result (getitem k_i) (FormDiagram.vertex_neighbors form ik.2);
                    Ok (ik.1, ns))
         (enumerate (FormDiagram.vertices form));
  let i_j := dict_of i_j in
  let uv_e := FormDiagram.uv_index form in
  ij_e ← mapM_result
          (fun uve => i ← getitem k_i uve.1.1; j ← getitem k_i uve.1.2;
                      e ← getitem uv_e uve.1; Ok ((i, j), e))
          (map_to_list uv_e);
  let ij_e := dict_of ij_e in
  let xy := FormDiagram.xy form in
  edges ← edge_indices k_i (FormDiagram.edges form);
  C ← connectivity_matrix edges;
  ji_e ← mapM_result
          (fun uve => j ← getitem k_i uve.1.2; i ← getitem k_i uve.1.1;
                      e ← getitem uv_e uve.1; Ok ((j, i), e))
          (map_to_list uv_e);
  let ij_e := dict_of ji_e ∪ ij_e in
  (* constraints *)
  leaves ← mapM_result (getitem k_i) (FormDiagram.leaves form);
  fixed ← mapM_result (getitem k_i) (FormDiagram.fixed form);
  let free := range_minus (FormDiagram.number_of_vertices form) (fixed ++ leaves) in
  (* force diagram *)
  let _i_k : gmap nat nat := dict_of (enumerate (ForceDiagram.vertices force)) in
  let _xy := ForceDiagram.xy force in
  _edges ← ForceDiagram.ordered_edges force form;
  _uv_e ← mapM_result
           (fun ie => u ← getitem _i_k ie.2.1; v ← getitem _i_k ie.2.2; Ok ((u, v), ie.1))
           (enumerate _edges);
  let _uv_e := dict_of _uv_e in
  _C ← connectivity_matrix _edges;
  let _uv_e :=
    dict_of (map (fun uve => ((uve.1.2, uve.1.1), uve.2)) (map_to_list _uv_e)) ∪ _uv_e in
  (* the coordinates of the free vertices *)
  xy ← update_form_from_force xy _xy free leaves i_j ij_e _C kmax;
  (* update *)
  uv ← dot C xy;
  _uv ← dot _C _xy;
  a ← mapM_result
        (fun i => u ← index (rows uv) i; _u ← index (rows _uv) i;
                  Ok (angle_vectors_xy u _u))
        (seq 0 (length edges));
  let l := normrow uv in
  let _l := normrow _uv in
  q ← broadcast_div _l l;
  (* update form diagram *)
  vertex' ← mapM_result (write_xy k_i xy) (form_vertex form);
  edge' ← mapM_result (write_form_edge uv_e l a _l q) (form_edge form);
  (* update force diagram *)
  _edge' ← mapM_result (write_force_edge _uv_e a _l) (force_edge force);
  Ok ({| form_vertex := vertex'; form_edge := edge' |},
      {| force_vertex := force_vertex force; force_edge := _edge';
         force_anchor := force_anchor force |}).

Definition force_update_from_form (force : ForceDiagram) (form : FormDiagram)
  : result ForceDiagram :=
  (* form diagram *)
  let k_i := FormDiagram.key_index form in
  let xy := FormDiagram.xy form in
  edges ← edge_indices k_i (FormDiagram.edges form);
  C ← connectivity_matrix edges;
  let Q := diags (FormDiagram.q form) in
  uv ← dot C xy;
  (* force diagram *)
  let _k_i := ForceDiagram.key_index force in
  anchor ← getitem _k_i (ForceDiagram.anchor force);
  let _known := [anchor] in
  let _xy := ForceDiagram.xy force in
  _edges ← ForceDiagram.ordered_edges force form;
  _C ← connectivity_matrix _edges;
  let _Ct := transpose _C in
  (* compute reciprocal for given q *)
  _CtC ← dot _Ct _C;
  _CtQ ← dot _Ct Q;
  _CtQuv ← dot _CtQ uv;
  _xy ← spsolve_with_known _CtC _CtQuv _xy _known;
  (* update force diagram *)
  vertex' ← mapM_result (write_xy _k_i _xy) (force_vertex force);
  Ok {| force_vertex := vertex'; force_edge := force_edge force;
        force_anchor := force_anchor force |}.

(** The current lengths of the edges of a form diagram, in the order of
    its edges. *)
Definition edge_lengths (form : FormDiagram) : result (list Q) :=
  edges ← edge_indices (FormDiagram.key_index form) (FormDiagram.edges form);
  C ← connectivity_matrix edges;
  uv ← dot C (FormDiagram.xy form);
  Ok (normrow uv).

(** *** The entry points for remote execution *)

Definition form_update_q_from_qind_proxy (formdata : pyobj) : result pyobj :=
  let fr := enter [("formdata"%string, formdata)] in
  (* form = FormDiagram.from_data(formdata) *)
  arg ← load fr "formdata";
  form ← FormDiagram_from_data arg;
  let fr := store fr "form" (FormObj form) in
  (* form_update_q_from_qind(form) *)
  arg ← load fr "form";
  form ← as_form arg;
  form ← form_update_q_from_qind form;
  let fr := store fr "form" (FormObj form) in
  (* return form.to_data() *)
  arg ← load fr "form";
  form ← as_form arg;
  Ok (FormData form).

Definition form_update_from_force_proxy (formdata forcedata : pyobj) (kmax : nat)
  : result pyobj :=
  let fr := enter [("formdata"%string, formdata); ("forcedata"%string, forcedata)] in
  (* form = FormDiagram.from_data(form) *)
  arg ← load fr "form";
  form ← FormDiagram_from_data arg;
  let fr := store fr "form" (FormObj form) in
  (* force = ForceDiagram.from_data(force) *)
  arg ← load fr "force";
  force ← ForceDiagram_from_data arg;
  let fr := store fr "force" (ForceObj force) in
  (* form_update_from_force(form, force, *args, **kwargs) *)
  arg ← load fr "form";
  form ← as_form arg;
  arg ← load fr "force";
  force ← as_force arg;
  ff ← form_update_from_force form force kmax;
  let fr := store (store fr "form" (FormObj ff.1)) "force" (ForceObj ff.2) in
  (* return form.to_data() *)
  arg ← load fr "form";
  form ← as_form arg;
  Ok (FormData form).

Definition force_update_from_form_proxy (forcedata formdata : pyobj) : result pyobj :=
  let fr := enter [("forcedata"%string, forcedata); ("formdata"%string, formdata)] in
  (* form = FormDiagram.from_data(formdata) *)
  arg ← load fr "formdata";
  form ← FormDiagram_from_data arg;
  let fr := store fr "form" (FormObj form) in
  (* force = ForceDiagram.from_data(forcedata) *)
  arg ← load fr "forcedata";
  force ← ForceDiagram_from_data arg;
  let fr := store fr "force" (ForceObj force) in
  (* force_update_from_form(force, form) *)
  arg ← load fr "force";
  force ← as_force arg;
  arg ← load fr "form";
  form ← as_form arg;
  force ← force_update_from_form force form;
  let fr := store fr "force" (ForceObj force) in
  (* return force.to_data() *)
  arg ← load fr "force";
  force ← as_force arg;
  Ok (ForceData force).

End Graphstatics.

(** ** Constraints (compas_ags/ags/constraints.py) *)

(** The subclasses of [AbstractConstraint]; each holds its form diagram and
    the key of its vertex. *)
Inductive constraint : Type :=
| HorizontalFix (form : FormDiagram) (vertex : nat)
| VerticalFix (form : FormDiagram) (vertex : nat).

Definition constraint_form (c : constraint) : FormDiagram :=
  match c with
  | HorizontalFix form _ => form
  | VerticalFix form _ => form
  end.

Definition constraint_vertex (c : constraint) : nat :=
  match c with
  | HorizontalFix _ vertex => vertex
  | VerticalFix _ vertex => vertex
  end.

Definition number_of_cols (c : constraint) : nat :=
  let vcount := FormDiagram.number_of_vertices (constraint_form c) in
  2 * vcount.

(** [np.zeros((n, m))] *)
Definition zeros (n m : nat) : matrix := Mat m (replicate n (replicate m 0%Q)).

(** [row[0, idx] = x] on a (1, m) array. *)
Definition setitem_row (row : matrix) (idx : nat) (x : Q) : result matrix :=
  if decide (idx < ncols row) then
    Ok (Mat (ncols row) (map (fun r => <[idx := x]> r) (rows row)))
  else Raise IndexError.

Definition compute_constraint (c : constraint) : result (matrix * Q) :=
  match c with
  | HorizontalFix form vertex =>
      let constraint_jac_row := zeros 1 (number_of_cols c) in
      idx ← getitem (FormDiagram.key_index form) vertex;
      constraint_jac_row ← setitem_row constraint_jac_row idx 1%Q;
      Ok (constraint_jac_row, 0%Q)
  | VerticalFix form vertex =>
      let constraint_jac_row := zeros 1 (number_of_cols c) in
      idx ← getitem (FormDiagram.key_index form) vertex;
      let idx := idx + FormDiagram.number_of_vertices form in
      constraint_jac_row ← setitem_row constraint_jac_row idx 1%Q;
      Ok (constraint_jac_row, 0%Q)
  end.

Record ConstraintsCollection : Type := Collection { constraints : list constraint }.

(** [ConstraintsCollection()] *)
Definition new_collection : ConstraintsCollection := Collection [].

Definition add_constraint (self : ConstraintsCollection) (other : constraint)
  : ConstraintsCollection :=
  Collection (constraints self ++ [other]).

(** The loop of [compute_constraints]. *)
Fixpoint stack_constraints (cs : list constraint) (jac res : matrix)
  : result (matrix * matrix) :=
  match cs with
  | [] => Ok (jac, res)
  | c :: cs' =>
      jr ← compute_constraint c;
      jac ← vstack jac jr.1;
      res ← vstack res (Mat 1 [[jr.2]]);
      stack_constraints cs' jac res
  end.

Definition compute_constraints (self : ConstraintsCollection) : result (matrix * matrix) :=
  c0 ← index (constraints self) 0;
  let jac := zeros 0 (number_of_cols c0) in
  let res := zeros 0 1 in
  stack_constraints (constraints self) jac res.

(** ** Reference definitions

    The notions that the properties below are stated with. *)

(** The equilibrium matrix of a form diagram, with the edges as pairs of
    vertex indices: the common part of the two analysis functions. *)
Definition form_equilibrium (form : FormDiagram) : result (list (nat * nat) * matrix) :=
  let k_i := FormDiagram.key_index form in
  fixed ← mapM_result (getitem k_i) (FormDiagram.fixed form);
  let free := range_minus (length (form_vertex form)) fixed in
  edges ← edge_indices k_i (FormDiagram.edges form);
  C ← connectivity_matrix edges;
  E ← equilibrium_matrix C (FormDiagram.xy form) free;
  Ok (edges, E).

(** The row [r] is zero in the columns before [j]. *)
Definition zero_before (j : nat) (r : list Q) : Prop :=
  forall x, x < j -> Qnz (nth x r 0%Q) = false.

(** Column [j] holds the leading entry of a row of the echelon matrix [U]. *)
Definition is_pivot_column (U : matrix) (j : nat) : bool :=
  existsb (fun r => bool_decide (first_nonzero 0 r = Some j)) (rows U).

(** The edges at the columns without a pivot of the reduced row-echelon
    form of [M], from left to right. *)
Definition edges_at_nonpivot_columns (M : matrix) (edges : list (nat * nat))
  : result (list (nat * nat)) :=
  mapM_result (index edges)
    (filter (fun j => is_pivot_column (rref M) j = false) (seq 0 (ncols M))).

(** The independent edges as the specification words them: by the row
    reduction of the transpose of the equilibrium matrix. *)
Definition independent_edges_of_transpose (form : FormDiagram)
  : result (list (nat * nat)) :=
  eE ← form_equilibrium form;
  edges_at_nonpivot_columns (transpose eE.2) eE.1.

(** The independent edges by the row reduction of the equilibrium matrix
    itself, whose columns are the edges. *)
Definition independent_edges_of_equilibrium (form : FormDiagram)
  : result (list (nat * nat)) :=
  eE ← form_equilibrium form;
  edges_at_nonpivot_columns eE.2 eE.1.

(** The sign convention: an edge with the angle [a] to its reciprocal edge,
    the length [l] and the reciprocal length [_l] carries the force [_l] and
    the force density [_l / l] when [a] is below 90 degrees, and their
    opposites otherwise.  The force density is a quotient by [l]: it is
    stated for an edge whose length is not zero. *)
Definition sign_rule (a l _l : Q) (attr : edge_attr) : Prop :=
  e_a attr = a /\ e_l attr = l /\
  (if Qltb a 90 then e_f attr = _l else e_f attr = (- _l)%Q) /\
  (~ (l == 0)%Q ->
   if Qltb a 90 then e_q attr = (_l / l)%Q else e_q attr = (- (_l / l))%Q).

(** The vectors of the edges of the form diagram with its vertices at the
    coordinates [xy], in the order of its edges. *)
Definition form_edge_vectors (form : FormDiagram) (xy : matrix) : result matrix :=
  edges ← edge_indices (FormDiagram.key_index form) (FormDiagram.edges form);
  C ← connectivity_matrix edges;
  dot C xy.

(** The vertex [kv'] is the vertex [kv] of a diagram with the key to index
    mapping [k_i], moved to its row of the array [xy]. *)
Definition moved_to (k_i : gmap nat nat) (xy : matrix) (kv kv' : nat * vertex_attr) : Prop :=
  exists i x y r,
    k_i !! kv.1 = Some i /\ rows xy !! i = Some (x :: y :: r) /\
    kv' = (kv.1, set_xy kv.2 x y).

(** Two results are the same up to the order of the list: both return, and
    one list is a permutation of the other, or both raise the same
    exception. *)
Definition same_up_to_order {A : Type} (r r' : result (list A)) : Prop :=
  match r, r' with
  | Ok l, Ok l' => l ≡ₚ l'
  | Raise e, Raise e' => e = e'
  | _, _ => False
  end.

(** The exceptions of the lookups and of the shape checks. *)
Definition lookup_or_shape_error (e : exn) : Prop :=
  e = KeyError \/ e = IndexError \/ e = ValueError.

(** The vectors of the edges of the force diagram, in the order of the edges
    of the form diagram. *)
Definition force_edge_vectors (force : ForceDiagram) (form : FormDiagram) : result matrix :=
  _edges ← ForceDiagram.ordered_edges force form;
  _C ← connectivity_matrix _edges;
  dot _C (ForceDiagram.xy force).

(** The system [(C^t C) xy_force = C^t Q uv_form] of the specification: [C]
    on the left is the connectivity matrix of the force diagram, [Q] the
    diagonal matrix of the force densities of the form diagram and [uv_form]
    the vectors of its edges. *)
Definition reciprocal_system (force : ForceDiagram) (form : FormDiagram)
  : result (matrix * matrix) :=
  edges ← edge_indices (FormDiagram.key_index form) (FormDiagram.edges form);
  C ← connectivity_matrix edges;
  uv_form ← dot C (FormDiagram.xy form);
  _edges ← ForceDiagram.ordered_edges force form;
  _C ← connectivity_matrix _edges;
  let _Ct := transpose _C in
  _CtC ← dot _Ct _C;
  _CtQ ← dot _Ct (diags (FormDiagram.q form));
  _CtQuv ← dot _CtQ uv_form;
  Ok (_CtC, _CtQuv).

(** Two arrays agree entry by entry, as rational numbers. *)
Definition mat_eq (M N : matrix) : Prop := Forall2 (Forall2 Qeq) (rows M) (rows N).

(** [x] solves [A x = b]. *)
Definition solves (A x b : matrix) : Prop :=
  exists M, dot A x = Ok M /\ mat_eq M b.

(** The system that [spsolve_with_known] hands to the solver: the rows and
    the columns of [A] at the unknowns, and on the right [b] at the unknowns
    less the contribution of the known rows of [x]. *)
Definition reduced_system (A b x : matrix) (known : list nat) : result (matrix * matrix) :=
  let unknown := range_minus (nrows x) known in
  Au ← take_rows A unknown;
  A11 ← take_cols Au unknown;
  A12 ← take_cols Au known;
  bu ← take_rows b unknown;
  xk ← take_rows x known;
  A12xk ← dot A12 xk;
  b' ← mat_sub bu A12xk;
  Ok (A11, b').

(** The vertices reached from [from] along the edges in at most [n] steps. *)
Fixpoint reached (edge : list ((nat * nat) * edge_attr)) (n : nat) (from : list nat)
  : list nat :=
  match n with
  | 0 => from
  | S n' => reached edge n' (remove_dups (from ++ flat_map (neighbors_of edge) from))
  end.

(** The connectivity of the force diagram spans its vertices: every vertex
    is reached from the anchor. *)
Definition spans_from_anchor (force : ForceDiagram) : bool :=
  forallb (fun k => bool_decide
                      (k ∈ reached (force_edge force) (length (force_vertex force))
                                   [force_anchor force]))
          (ForceDiagram.vertices force).

(** A row of zeros with a one at column [c]. *)
Definition one_hot (m c : nat) : list Q :=
  map (fun j => if decide (j = c) then 1%Q else 0%Q) (seq 0 m).

(** The column of the coordinate that a constraint fixes. *)
Definition fixed_column (c : constraint) (idx : nat) : nat :=
  match c with
  | HorizontalFix _ _ => idx
  | VerticalFix form _ => idx + FormDiagram.number_of_vertices form
  end.

(** ** Instances for the examples *)

(** The square root, exact on the squares of rationals. *)
Definition sqrt_exact (x : Q) : Q :=
  let x := Qred x in Z.sqrt (Qnum x) # Pos.sqrt (Qden x).

(** The angle in degrees, exact for parallel, perpendicular and opposite
    vectors. *)
Definition angle_axis (u v : list Q) : Q :=
  let d := dot_vec u v in
  if Qltb 0 d then 0%Q else if Qltb d 0 then 180%Q else 90%Q.

(** A direct solver on exact rationals, by row reduction of [[A | B]]. *)
Definition spsolve_exact (A B : matrix) : matrix :=
  let R := rref (Mat (ncols A + ncols B) (zip_with app (rows A) (rows B))) in
  Mat (ncols B) (map (drop (ncols A)) (take (ncols A) (rows R))).

(** The relaxation stopped before its first sweep. *)
Definition no_relaxation (xy _xy : matrix) (free leaves : list nat)
    (i_j : gmap nat (list nat)) (ij_e : gmap (nat * nat) nat) (_C : matrix) (kmax : nat)
  : result matrix := Ok xy.

(** An edge with the force density 1 that is independent and structural. *)
Definition independent_edge (u v : nat) (f l a : Q) : (nat * nat) * edge_attr :=
  ((u, v), {| e_q := 1; e_f := f; e_l := l; e_a := a; is_edge := true; is_ind := true |}).

(** The triangle of the vertices 0, 1 and 2, with the vertex 0 fixed at the
    origin; all edges are independent, with the force density 1. *)
Definition triangle (x1 y1 x2 y2 : Q) (f l a : Q) : FormDiagram :=
  {| form_vertex := [(0, VertexAttr 0 0 true); (1, VertexAttr x1 y1 false);
                     (2, VertexAttr x2 y2 false)];
     form_edge := [independent_edge 0 1 f l a; independent_edge 1 2 f l a;
                   independent_edge 2 0 f l a] |}.

Definition plain_edge (u v : nat) (q : Q) (structural independent : bool)
  : (nat * nat) * edge_attr :=
  ((u, v), {| e_q := q; e_f := 0; e_l := 0; e_a := 0;
              is_edge := structural; is_ind := independent |}).

(** A form diagram with three bars out of the vertex 0; the last one is
    auxiliary, and independent. *)
Definition tripod : FormDiagram :=
  {| form_vertex := [(0, VertexAttr 0 0 false); (1, VertexAttr 4 0 true);
                     (2, VertexAttr 0 3 true); (3, VertexAttr (-3) (-4) true)];
     form_edge := [plain_edge 0 1 1 true false; plain_edge 0 2 2 true false;
                   plain_edge 0 3 1 false true] |}.

(** A force diagram for [tripod]: its first edge is parallel to its
    counterpart, the second opposite, the third perpendicular. *)
Definition tripod_force : ForceDiagram :=
  {| force_vertex := [(0, VertexAttr 0 0 false); (1, VertexAttr 8 0 false);
                      (2, VertexAttr 8 (-6) false)];
     force_edge := [plain_edge 0 1 0 true false; plain_edge 1 2 0 true false;
                    plain_edge 2 0 0 true false];
     force_anchor := 0 |}.

(** A force diagram in two components: the vertices 2 and 3 are not reached
    from the anchor 0. *)
Definition split_force : ForceDiagram :=
  {| force_vertex := [(0, VertexAttr 0 0 false); (1, VertexAttr 1 0 false);
                      (2, VertexAttr 5 5 false); (3, VertexAttr 6 5 false)];
     force_edge := [plain_edge 0 1 0 true false; plain_edge 2 3 0 true false];
     force_anchor := 0 |}.

Definition two_bars : FormDiagram :=
  {| form_vertex := [(0, VertexAttr 0 0 true); (1, VertexAttr 1 0 false);
                     (2, VertexAttr 2 0 true)];
     form_edge := [plain_edge 0 1 1 true false; plain_edge 1 2 1 true false] |}.

(** Four bars out of the free vertex 0, to four supports: two of the four
    edges are independent. *)
Definition fan : FormDiagram :=
  {| form_vertex := [(0, VertexAttr 0 0 false); (1, VertexAttr 1 0 true);
                     (2, VertexAttr 0 1 true); (3, VertexAttr (-1) 0 true);
                     (4, VertexAttr 0 (-1) true)];
     form_edge := [plain_edge 0 1 1 true false; plain_edge 0 2 1 true false;
                   plain_edge 0 3 1 true false; plain_edge 0 4 1 true false] |}.

(** A second diagram, with two vertices. *)
Definition one_bar : FormDiagram :=
  {| form_vertex := [(0, VertexAttr 0 0 true); (1, VertexAttr 1 0 false)];
     form_edge := [plain_edge 0 1 1 true false] |}.

(** * Properties *)

(** ** The error monad *)

Lemma bind_Ok {A B : Type} (f : A -> result B) (a : A) : Ok a ≫= f = f a.
Proof. reflexivity. Qed.

Lemma bind_Raise {A B : Type} (f : A -> result B) (e : exn) : Raise e ≫= f = Raise e.
Proof. reflexivity. Qed.

Lemma bind_Ok_inv {A B : Type} (f : A -> result B) (m : result A) (b : B) :
  m ≫= f = Ok b -> exists a, m = Ok a /\ f a = Ok b.
Proof. destruct m as [a|e]; [eauto | discriminate]. Qed.

Lemma mapM_result_Forall2 {A B : Type} (f : A -> result B) (l : list A) (l' : list B) :
  mapM_result f l = Ok l' -> Forall2 (fun x y => f x = Ok y) l l'.
Proof.
  revert l'. induction l as [|x l IH]; intros l' H; simpl in H.
  - injection H as <-. constructor.
  - apply bind_Ok_inv in H as (y & Hy & H).
    apply bind_Ok_inv in H as (ys & Hys & H).
    injection H as <-. constructor; auto.
Qed.

Lemma Forall2_mapM_result {A B : Type} (f : A -> result B) (l : list A) (l' : list B) :
  Forall2 (fun x y => f x = Ok y) l l' -> mapM_result f l = Ok l'.
Proof.
  induction 1 as [|x y l l' Hxy _ IH]; simpl; [reflexivity|].
  rewrite Hxy, bind_Ok, IH. reflexivity.
Qed.

Lemma mapM_result_length {A B : Type} (f : A -> result B) (l : list A) (l' : list B) :
  mapM_result f l = Ok l' -> length l' = length l.
Proof. intros H. apply mapM_result_Forall2, Forall2_length in H. done. Qed.

Lemma mapM_result_lookup {A B : Type} (f : A -> result B) (l : list A) (l' : list B)
    (i : nat) (x : A) :
  mapM_result f l = Ok l' -> l !! i = Some x -> exists y, l' !! i = Some y /\ f x = Ok y.
Proof.
  intros H Hx. apply mapM_result_Forall2 in H.
  destruct (Forall2_lookup_l _ _ _ _ _ H Hx) as (y & Hy & Hf). eauto.
Qed.

Lemma mapM_index_total {A : Type} (l : list A) (js : list nat) :
  Forall (fun j => j < length l) js -> exists r, mapM_result (index l) js = Ok r.
Proof.
  induction 1 as [|j js Hj _ [r IH]]; simpl; [eauto|].
  destruct (lookup_lt_is_Some_2 _ _ Hj) as [x Hx].
  assert (index l j = Ok x) as -> by (unfold index; rewrite Hx; reflexivity).
  rewrite bind_Ok, IH. eauto.
Qed.

Lemma raises_only_bind {A B : Type} (P : exn -> Prop) (m : result A) (f : A -> result B) :
  raises_only P m -> (forall a, m = Ok a -> raises_only P (f a)) -> raises_only P (m ≫= f).
Proof. destruct m; simpl; auto. Qed.

Lemma raises_only_mapM {A B : Type} (P : exn -> Prop) (f : A -> result B) (l : list A) :
  (forall x, raises_only P (f x)) -> raises_only P (mapM_result f l).
Proof.
  intros Hf. induction l as [|x l IH]; simpl; [exact I|].
  apply raises_only_bind; [apply Hf|]. intros y _.
  apply raises_only_bind; [apply IH|]. intros ys _. exact I.
Qed.

Lemma raises_only_weaken {A : Type} (P P' : exn -> Prop) (r : result A) :
  (forall e, P e -> P' e) -> raises_only P r -> raises_only P' r.
Proof. destruct r; simpl; auto. Qed.

(** ** Shapes *)

Lemma dot_shape (A B M : matrix) :
  dot A B = Ok M -> ncols M = ncols B /\ nrows M = nrows A.
Proof.
  unfold dot. case_decide; [|discriminate]. intros [= <-]. simpl.
  unfold nrows. simpl. rewrite length_map. done.
Qed.

Lemma vstack_shape (A B M : matrix) :
  vstack A B = Ok M -> ncols M = ncols A /\ rows M = rows A ++ rows B.
Proof. unfold vstack. case_decide; [|discriminate]. intros [= <-]. done. Qed.

Lemma connectivity_matrix_nrows (edges : list (nat * nat)) (C : matrix) :
  connectivity_matrix edges = Ok C -> nrows C = length edges.
Proof.
  unfold connectivity_matrix. destruct edges as [|e edges]; [discriminate|].
  intros [= <-]. unfold nrows. simpl. rewrite length_map. done.
Qed.

Lemma length_col (A : matrix) (j : nat) : length (col A j) = nrows A.
Proof. unfold col, nrows. apply length_map. Qed.

Lemma equilibrium_matrix_ncols (C xy E : matrix) (free : list nat) :
  equilibrium_matrix C xy free = Ok E -> ncols E = nrows C.
Proof.
  unfold equilibrium_matrix. intros H.
  apply bind_Ok_inv in H as (uv & Huv & H).
  apply bind_Ok_inv in H as (Cti & _ & H).
  apply bind_Ok_inv in H as (EU & HEU & H).
  apply bind_Ok_inv in H as (EV & _ & H).
  apply vstack_shape in H as [-> _].
  apply dot_shape in HEU as [-> _]. simpl.
  rewrite length_col. apply dot_shape in Huv as [_ ->]. done.
Qed.

Lemma range_minus_lt (n : nat) (xs : list nat) (j : nat) :
  j ∈ range_minus n xs -> j < n.
Proof.
  unfold range_minus. rewrite list_elem_of_difference, elem_of_seq. lia.
Qed.

Lemma nonpivots_lt (U : matrix) : Forall (fun j => j < ncols U) (nonpivots U).
Proof. apply Forall_forall. intros j. apply range_minus_lt. Qed.

(** ** Degrees of freedom *)

(** C6.  On every form diagram, [form_count_dof] returns the pair [(k, m)]
    that [form_identify_dof] returns as its first two components, and it
    raises the same exception where [form_identify_dof] raises one. *)
Theorem form_count_dof_agrees (form : FormDiagram) :
  form_count_dof form = (fun kmi => (kmi.1.1, kmi.1.2)) <$> form_identify_dof form.
Proof.
  unfold form_count_dof, form_identify_dof.
  destruct (mapM_result _ (FormDiagram.fixed form)) as [fixed|]; [|reflexivity].
  rewrite !bind_Ok.
  destruct (edge_indices _ _) as [edges|]; [|reflexivity].
  rewrite !bind_Ok.
  destruct (connectivity_matrix edges) as [C|] eqn:HC; [|reflexivity].
  rewrite !bind_Ok.
  destruct (equilibrium_matrix _ _ _) as [E|] eqn:HE; [|reflexivity].
  rewrite !bind_Ok.
  destruct (dof E) as [k m].
  destruct (mapM_index_total edges (nonpivots (rref E))) as [r ->]; [|reflexivity].
  eapply Forall_impl; [apply nonpivots_lt|]. simpl. intros j Hj.
  apply equilibrium_matrix_ncols in HE. apply connectivity_matrix_nrows in HC.
  lia.
Qed.

Lemma list_difference_filter (l k : list nat) :
  list_difference l k = filter (fun x => x ∉ k) l.
Proof.
  induction l as [|x l IH]; [reflexivity|]. simpl.
  rewrite filter_cons. destruct (decide_rel elem_of x k) as [Hx|Hx].
  - rewrite decide_False by tauto. exact IH.
  - rewrite decide_True by assumption. f_equal. exact IH.
Qed.

Lemma is_pivot_column_pivots (U : matrix) (j : nat) :
  is_pivot_column U j = true <-> j ∈ pivots U.
Proof.
  unfold is_pivot_column, pivots. rewrite existsb_exists, list_elem_of_omap.
  split.
  - intros (r & Hr & Hj). apply bool_decide_eq_true in Hj.
    exists r. split; [by apply list_elem_of_In | done].
  - intros (r & Hr & Hj). exists r. split; [by apply list_elem_of_In|].
    by apply bool_decide_eq_true.
Qed.

Lemma nonpivots_filter (U : matrix) :
  nonpivots U = filter (fun j => is_pivot_column U j = false) (seq 0 (ncols U)).
Proof.
  unfold nonpivots, range_minus. rewrite list_difference_filter.
  apply list_filter_iff. intros j.
  rewrite <- is_pivot_column_pivots. destruct (is_pivot_column U j); split; congruence.
Qed.

(** The edges read at a list of columns do not depend, up to their order, on
    the order in which the columns are listed. *)
Lemma mapM_index_Permutation {A : Type} (l : list A) (cols cols' : list nat) :
  cols ≡ₚ cols' ->
  same_up_to_order (mapM_result (index l) cols) (mapM_result (index l) cols').
Proof.
  assert (forall j e, index l j = Raise e -> e = IndexError) as Hexn.
  { intros j e. unfold index. destruct (l !! j); [discriminate|]. by intros [= <-]. }
  induction 1 as [|j cols cols' _ IH|i j cols|cols1 cols2 cols3 _ IH1 _ IH2];
    cbn [mapM_result].
  - cbn. reflexivity.
  - destruct (index l j) as [x|e]; [|by cbn]. rewrite !bind_Ok.
    destruct (mapM_result _ cols), (mapM_result _ cols'); cbn in *; try done.
    by apply Permutation_skip.
  - destruct (index l i) as [x|e1] eqn:Hi, (index l j) as [y|e2] eqn:Hj;
      rewrite ?bind_Ok, ?bind_Raise; try (by cbn).
    + destruct (mapM_result _ cols); cbn; [apply Permutation_swap|done].
    + apply Hexn in Hi, Hj. cbn. congruence.
  - destruct (mapM_result _ cols1), (mapM_result _ cols2), (mapM_result _ cols3);
      cbn in *; try done; [by etrans|congruence].
Qed.

(** C1 (as amended).  On every form diagram, the independent edges that
    [form_identify_dof] returns are, up to their order, the edges at the
    columns without a pivot of the reduced row-echelon form of the
    equilibrium matrix [E] itself; the matrix is not transposed.  The order
    of the returned list is the order in which the set of these columns is
    listed, and it is left open: in whatever order [cols] the columns
    without a pivot are listed, the edges read at [cols] are the same up to
    their order. *)
Theorem form_identify_dof_nonpivot_edges (form : FormDiagram) :
  same_up_to_order ((fun kmi => kmi.2) <$> form_identify_dof form)
                   (independent_edges_of_equilibrium form) /\
  forall (edges : list (nat * nat)) (E : matrix) (cols : list nat),
    form_equilibrium form = Ok (edges, E) ->
    cols ≡ₚ nonpivots (rref E) ->
    same_up_to_order (mapM_result (index edges) cols)
                     (independent_edges_of_equilibrium form).
Proof.
  split.
  - unfold form_identify_dof, independent_edges_of_equilibrium, form_equilibrium.
    destruct (mapM_result _ (FormDiagram.fixed form)) as [fixed|]; [|by cbn].
    rewrite !bind_Ok.
    destruct (edge_indices _ _) as [edges|]; [|by cbn].
    rewrite !bind_Ok.
    destruct (connectivity_matrix edges) as [C|]; [|by cbn].
    rewrite !bind_Ok.
    destruct (equilibrium_matrix _ _ _) as [E|]; [|by cbn].
    rewrite !bind_Ok. simpl.
    destruct (dof E) as [k m].
    unfold edges_at_nonpivot_columns. rewrite nonpivots_filter. simpl.
    destruct (mapM_result _ _); cbn; reflexivity.
  - intros edges E cols HE Hcols. unfold independent_edges_of_equilibrium.
    rewrite HE, bind_Ok. cbn [fst snd]. unfold edges_at_nonpivot_columns.
    rewrite nonpivots_filter in Hcols. simpl in Hcols.
    by apply mapM_index_Permutation.
Qed.

(** C1, a witness: the fan has the columns 2 and 3 without a pivot; read in
    the order 3, 2, they give its last two edges. *)
Lemma form_identify_dof_nonpivot_edges_witness :
  same_up_to_order (mapM_result (index [(0, 1); (0, 2); (0, 3); (0, 4)]) [3; 2])
                   (independent_edges_of_equilibrium fan).
Proof.
  eapply (proj2 (form_identify_dof_nonpivot_edges fan)).
  - vm_compute. reflexivity.
  - vm_compute. apply Permutation_swap.
Defined.

(** C1, the counterexample.  On the triangle with the vertices (0, 0), (1, 0)
    and (0, 1), the equilibrium matrix has full column rank and
    [form_identify_dof] returns no independent edge, while the row reduction
    of the transposed matrix leaves its third column without a pivot. *)
Lemma form_identify_dof_not_transpose :
  ~ (forall form : FormDiagram,
       same_up_to_order ((fun kmi => kmi.2) <$> form_identify_dof form)
                        (independent_edges_of_transpose form)).
Proof.
  intros H. specialize (H (triangle 1 0 0 1 0 0 0)).
  assert ((fun kmi => kmi.2) <$> form_identify_dof (triangle 1 0 0 1 0 0 0) = Ok [])
    as Hcode by (vm_compute; reflexivity).
  assert (independent_edges_of_transpose (triangle 1 0 0 1 0 0 0) = Ok [(2, 0)])
    as Hspec by (vm_compute; reflexivity).
  rewrite Hcode, Hspec in H. cbn in H.
  apply Permutation_length in H. discriminate H.
Qed.

(** ** Remote execution *)

(** C5.  On every input, [form_update_from_force_proxy] raises
    [UnboundLocalError]: its first statement reads the local name [form],
    which is not bound yet, and no diagram is built and no update is run. *)
Theorem form_update_from_force_proxy_unbound
    (sqrt : Q -> Q) (angle_vectors_xy : list Q -> list Q -> Q)
    (update_form_from_force :
       matrix -> matrix -> list nat -> list nat -> gmap nat (list nat) ->
       gmap (nat * nat) nat -> matrix -> nat -> result matrix)
    (formdata forcedata : pyobj) (kmax : nat) :
  form_update_from_force_proxy sqrt angle_vectors_xy update_form_from_force
    formdata forcedata kmax = Raise UnboundLocalError.
Proof. reflexivity. Qed.

(** ** Force densities *)

(** C10.  A call of [form_update_q_from_qind] that returns leaves the
    vertices and the keys, the angles and the flags of all edges as they
    were, and it leaves every edge whose [is_edge] is false unchanged: [q],
    [f] and [l] are written on the structural edges only. *)
Theorem form_update_q_from_qind_frame (sqrt : Q -> Q) (form form' : FormDiagram) :
  form_update_q_from_qind sqrt form = Ok form' ->
  form_vertex form' = form_vertex form /\
  Forall2 (fun ke ke' =>
             ke'.1 = ke.1 /\ e_a ke'.2 = e_a ke.2 /\
             is_edge ke'.2 = is_edge ke.2 /\ is_ind ke'.2 = is_ind ke.2 /\
             (is_edge ke.2 = false -> ke' = ke))
          (form_edge form) (form_edge form').
Proof.
  unfold form_update_q_from_qind. intros H.
  do 7 (apply bind_Ok_inv in H as (? & _ & H)).
  apply bind_Ok_inv in H as (edge' & Hedge & H).
  injection H as <-. simpl. split; [reflexivity|].
  apply mapM_result_Forall2 in Hedge.
  eapply Forall2_impl; [exact Hedge|].
  intros [key attr] ke'. unfold write_qfl. simpl.
  destruct (is_edge attr) eqn:Hstructural.
  - intros Hw.
    apply bind_Ok_inv in Hw as (i & _ & Hw).
    apply bind_Ok_inv in Hw as (qi & _ & Hw).
    apply bind_Ok_inv in Hw as (fi & _ & Hw).
    apply bind_Ok_inv in Hw as (li & _ & Hw).
    injection Hw as <-. simpl. repeat split; try done.
  - intros [= <-]. simpl. repeat split; done.
Qed.

(** C10, a witness: the tripod, whose third edge is auxiliary. *)
Lemma form_update_q_from_qind_frame_witness :
  exists form',
    form_update_q_from_qind sqrt_exact tripod = Ok form' /\
    form_vertex form' = form_vertex tripod /\
    Forall2 (fun ke ke' =>
               ke'.1 = ke.1 /\ e_a ke'.2 = e_a ke.2 /\
               is_edge ke'.2 = is_edge ke.2 /\ is_ind ke'.2 = is_ind ke.2 /\
               (is_edge ke.2 = false -> ke' = ke))
            (form_edge tripod) (form_edge form').
Proof.
  eexists. split; [vm_compute; reflexivity|].
  apply (form_update_q_from_qind_frame sqrt_exact tripod).
  vm_compute. reflexivity.
Defined.

(** ** Dicts *)

Lemma foldl_insert_lookup `{Countable K} {V : Type} (kvs : list (K * V))
    (d : gmap K V) (k : K) (v : V) :
  foldl (fun d kv => <[kv.1 := kv.2]> d) d kvs !! k = Some v ->
  (k, v) ∈ kvs \/ d !! k = Some v.
Proof.
  revert d. induction kvs as [|[k' v'] kvs IH]; intros d Hl; simpl in Hl; [by right|].
  apply IH in Hl as [Hl|Hl]; [left; by right|].
  destruct (decide (k' = k)) as [->|Hne].
  - rewrite lookup_insert_eq in Hl. injection Hl as ->. left. by left.
  - rewrite lookup_insert_ne in Hl by done. by right.
Qed.

Lemma dict_of_lookup `{Countable K} {V : Type} (kvs : list (K * V)) (k : K) (v : V) :
  dict_of kvs !! k = Some v -> (k, v) ∈ kvs.
Proof.
  intros Hl. apply foldl_insert_lookup in Hl as [Hl|Hl]; [done|].
  by rewrite lookup_empty in Hl.
Qed.

Lemma enumerate_elem {A : Type} (l : list A) (i : nat) (x : A) :
  (i, x) ∈ enumerate l -> l !! i = Some x.
Proof.
  unfold enumerate. intros Hin.
  apply list_elem_of_lookup in Hin as [j Hj].
  apply lookup_zip_with_Some in Hj as (i' & x' & [= <- <-] & Hi & Hx).
  apply lookup_seq in Hi as [-> _]. exact Hx.
Qed.

Lemma key_index_of_lookup (vertex : list (nat * vertex_attr)) (k i : nat) :
  key_index_of vertex !! k = Some i -> exists attr, vertex !! i = Some (k, attr).
Proof.
  unfold key_index_of. intros Hl. apply dict_of_lookup in Hl.
  apply list_elem_of_fmap in Hl as ([i' [k' attr]] & [= -> ->] & Hin).
  apply enumerate_elem in Hin. eauto.
Qed.

Lemma key_index_of_lt (vertex : list (nat * vertex_attr)) (k i : nat) :
  key_index_of vertex !! k = Some i -> i < length vertex.
Proof.
  intros Hl. apply key_index_of_lookup in Hl as [attr Hl].
  by apply lookup_lt_Some in Hl.
Qed.

(** ** Constraints *)

Lemma insert_replicate_one_hot (m c : nat) :
  <[c := 1%Q]> (replicate m 0%Q) = one_hot m c.
Proof.
  apply list_eq. intros j. unfold one_hot.
  rewrite list_lookup_fmap.
  destruct (decide (j < m)) as [Hj|Hj].
  - rewrite lookup_seq_lt by done. simpl.
    destruct (decide (j = c)) as [->|Hne].
    + rewrite list_lookup_insert_eq; [done|]. by rewrite length_replicate.
    + rewrite list_lookup_insert_ne by done. by rewrite lookup_replicate_2.
  - rewrite lookup_seq_ge by lia. simpl.
    apply lookup_ge_None_2. rewrite length_insert, length_replicate. lia.
Qed.

(** A constraint whose vertex is a vertex of its form diagram yields a
    one-hot row of the width of its diagram and a zero residual. *)
Lemma compute_constraint_one_hot (c : constraint) (idx : nat) :
  FormDiagram.key_index (constraint_form c) !! constraint_vertex c = Some idx ->
  compute_constraint c
  = Ok (Mat (number_of_cols c) [one_hot (number_of_cols c) (fixed_column c idx)], 0%Q).
Proof.
  intros Hidx. pose proof (key_index_of_lt _ _ _ Hidx) as Hlt.
  destruct c as [form vertex|form vertex];
    cbn [constraint_form constraint_vertex compute_constraint fixed_column] in *;
    unfold getitem; rewrite Hidx. all: rewrite bind_Ok; unfold setitem_row, zeros, number_of_cols,
      FormDiagram.number_of_vertices; simpl.
  - rewrite decide_True by lia. rewrite bind_Ok.
    rewrite insert_replicate_one_hot. reflexivity.
  - rewrite decide_True by lia. rewrite bind_Ok.
    rewrite insert_replicate_one_hot. reflexivity.
Qed.

Lemma stack_constraints_rows (form : FormDiagram) (cs : list constraint) (jac res : matrix) :
  ncols jac = 2 * FormDiagram.number_of_vertices form ->
  ncols res = 1 ->
  Forall (fun c => constraint_form c = form /\
                   is_Some (FormDiagram.key_index form !! constraint_vertex c)) cs ->
  exists rs,
    stack_constraints cs jac res
    = Ok (Mat (ncols jac) (rows jac ++ rs),
          Mat 1 (rows res ++ replicate (length cs) [0%Q])) /\
    Forall2 (fun c row =>
               exists idx, FormDiagram.key_index form !! constraint_vertex c = Some idx /\
                           row = one_hot (ncols jac) (fixed_column c idx)) cs rs.
Proof.
  intros Hjac Hres Hcs. revert jac res Hjac Hres.
  induction Hcs as [|c cs [Hform [idx Hidx]] _ IH]; intros jac res Hjac Hres; simpl.
  - exists []. rewrite !app_nil_r. destruct jac, res; simpl in *; subst. split; [done|constructor].
  - rewrite <- Hform in Hidx at 1.
    rewrite (compute_constraint_one_hot c idx Hidx), bind_Ok. cbn [fst snd].
    assert (number_of_cols c = ncols jac) as Hc.
    { unfold number_of_cols. rewrite Hform. lia. }
    unfold vstack. cbn [ncols rows].
    rewrite !decide_True by lia. rewrite !bind_Ok.
    destruct (IH (Mat (ncols jac) (rows jac ++ [one_hot (number_of_cols c) (fixed_column c idx)]))
                 (Mat (ncols res) (rows res ++ [[0%Q]]))) as (rs & Hrs & Hall);
      [done|done|].
    simpl in Hrs, Hall. rewrite Hrs.
    exists (one_hot (number_of_cols c) (fixed_column c idx) :: rs).
    rewrite <- !app_assoc. simpl. split; [done|].
    constructor; [|done]. exists idx. rewrite <- Hform at 1. rewrite Hc. done.
Qed.

Lemma constraints_of_adds (cs : list constraint) :
  constraints (foldl add_constraint new_collection cs) = cs.
Proof.
  assert (forall self, constraints (foldl add_constraint self cs) = constraints self ++ cs) as H.
  { induction cs as [|c cs IH]; intros self; simpl; [by rewrite app_nil_r|].
    rewrite IH. simpl. by rewrite <- app_assoc. }
  apply H.
Qed.

(** C8 (as amended).  For [N >= 1] constraints [HorizontalFix] or
    [VerticalFix] on vertices of one form diagram, added to a collection one
    after the other, [compute_constraints] returns a Jacobian of [N] rows in
    the order of insertion, each row of [2 * vcount] entries that are zero but
    for a one at the index of the vertex ([HorizontalFix]) or at this index
    plus [vcount] ([VerticalFix]), and a residual of [N] zeros. *)
Theorem compute_constraints_one_hot_rows (form : FormDiagram) (cs : list constraint) :
  cs <> [] ->
  Forall (fun c => constraint_form c = form /\
                   is_Some (FormDiagram.key_index form !! constraint_vertex c)) cs ->
  exists jac res,
    compute_constraints (foldl add_constraint new_collection cs) = Ok (jac, res) /\
    ncols jac = 2 * FormDiagram.number_of_vertices form /\
    nrows jac = length cs /\
    Forall2 (fun c row =>
               exists idx, FormDiagram.key_index form !! constraint_vertex c = Some idx /\
                 row = one_hot (2 * FormDiagram.number_of_vertices form)
                               (fixed_column c idx)) cs (rows jac) /\
    res = Mat 1 (replicate (length cs) [0%Q]).
Proof.
  intros Hne Hcs. unfold compute_constraints. rewrite constraints_of_adds.
  destruct cs as [|c0 cs0] eqn:Ecs; [done|]. rewrite <- Ecs in *.
  assert (index cs 0 = Ok c0) as -> by (rewrite Ecs; reflexivity).
  rewrite bind_Ok.
  assert (number_of_cols c0 = 2 * FormDiagram.number_of_vertices form) as Hc0.
  { rewrite Ecs in Hcs. apply Forall_cons in Hcs as [[Hform _] _].
    unfold number_of_cols. by rewrite Hform. }
  destruct (stack_constraints_rows form cs (zeros 0 (number_of_cols c0)) (zeros 0 1))
    as (rs & Hrs & Hall); [done|done|done|].
  simpl in Hrs, Hall. rewrite Hrs. eexists _, _. split; [reflexivity|]. simpl.
  rewrite Hc0 in Hall. repeat split; [done| |done].
  unfold nrows. simpl. by apply Forall2_length in Hall.
Qed.

(** C8, a witness: three constraints on the tripod. *)
Lemma compute_constraints_one_hot_rows_witness :
  exists jac res,
    compute_constraints
      (foldl add_constraint new_collection
             [HorizontalFix tripod 1; VerticalFix tripod 1; VerticalFix tripod 3])
    = Ok (jac, res) /\
    ncols jac = 2 * FormDiagram.number_of_vertices tripod /\
    nrows jac = 3 /\
    Forall2 (fun c row =>
               exists idx, FormDiagram.key_index tripod !! constraint_vertex c = Some idx /\
                 row = one_hot (2 * FormDiagram.number_of_vertices tripod)
                               (fixed_column c idx))
            [HorizontalFix tripod 1; VerticalFix tripod 1; VerticalFix tripod 3] (rows jac) /\
    res = Mat 1 (replicate 3 [0%Q]).
Proof.
  apply (compute_constraints_one_hot_rows tripod
           [HorizontalFix tripod 1; VerticalFix tripod 1; VerticalFix tripod 3]).
  - discriminate.
  - repeat constructor; vm_compute; eauto.
Defined.

(** C8, the counterexample: with no constraint, [N = 0], the column count
    is read from a first constraint that does not exist. *)
Lemma compute_constraints_empty :
  compute_constraints (foldl add_constraint new_collection []) = Raise IndexError.
Proof. reflexivity. Qed.

Lemma stack_constraints_mismatch (cs : list constraint) (jac res : matrix) :
  ncols res = 1 ->
  Forall (fun c => is_Some (FormDiagram.key_index (constraint_form c) !! constraint_vertex c))
         cs ->
  Exists (fun c => number_of_cols c <> ncols jac) cs ->
  stack_constraints cs jac res = Raise ValueError.
Proof.
  intros Hres Hcs. revert jac res Hres.
  induction Hcs as [|c cs [idx Hidx] _ IH]; intros jac res Hres Hex.
  - inversion Hex.
  - cbn [stack_constraints].
    rewrite (compute_constraint_one_hot c idx Hidx), bind_Ok. cbn [fst snd].
    unfold vstack. cbn [ncols rows].
    destruct (decide (ncols jac = number_of_cols c)) as [Heq|Hne]; [|reflexivity].
    rewrite decide_True by lia. rewrite !bind_Ok.
    apply IH; [done|]. cbn [ncols].
    apply Exists_cons in Hex as [Hex|Hex]; [congruence|done].
Qed.

(** C9 (as amended).  If a collection holds two constraints built against
    form diagrams with different vertex counts, and the vertex of every
    constraint is a vertex of its diagram, then [compute_constraints] fails
    with the [ValueError] of [vstack], at the first row whose width differs
    from the width of the first constraint. *)
Theorem compute_constraints_mixed_counts (cs : list constraint) (c1 c2 : constraint) :
  Forall (fun c => is_Some (FormDiagram.key_index (constraint_form c) !! constraint_vertex c))
         cs ->
  c1 ∈ cs -> c2 ∈ cs ->
  FormDiagram.number_of_vertices (constraint_form c1)
  <> FormDiagram.number_of_vertices (constraint_form c2) ->
  compute_constraints (Collection cs) = Raise ValueError.
Proof.
  intros Hcs H1 H2 Hne. unfold compute_constraints. cbn [constraints].
  destruct cs as [|c0 cs0] eqn:Ecs; [by apply not_elem_of_nil in H1|].
  rewrite <- Ecs in *.
  assert (index cs 0 = Ok c0) as -> by (rewrite Ecs; reflexivity).
  rewrite bind_Ok. apply stack_constraints_mismatch; [done|done|].
  cbn [zeros ncols]. apply Exists_exists.
  destruct (decide (number_of_cols c1 = number_of_cols c0)) as [Heq|Hneq].
  - exists c2. split; [done|]. unfold number_of_cols in *. lia.
  - exists c1. split; done.
Qed.

(** C9, a witness: a constraint on the tripod, of four vertices, and one on
    a bar, of two vertices. *)
Lemma compute_constraints_mixed_counts_witness :
  compute_constraints (Collection [HorizontalFix tripod 1; VerticalFix one_bar 1])
  = Raise ValueError.
Proof.
  apply (compute_constraints_mixed_counts
           [HorizontalFix tripod 1; VerticalFix one_bar 1]
           (HorizontalFix tripod 1) (VerticalFix one_bar 1)).
  - repeat constructor; vm_compute; eauto.
  - by left.
  - right. by left.
  - vm_compute. lia.
Defined.

(** C9, the counterexample: the same collection mixes the vertex counts 4
    and 2, and the exception is not [InconsistentConstraintError]. *)
Lemma compute_constraints_not_inconsistent :
  FormDiagram.number_of_vertices tripod <> FormDiagram.number_of_vertices one_bar /\
  compute_constraints (Collection [HorizontalFix tripod 1; VerticalFix one_bar 1])
  <> Raise InconsistentConstraintError.
Proof. split; [vm_compute; lia | vm_compute; discriminate]. Qed.

(** ** Which exceptions the numerical steps raise *)

Lemma raises_getitem `{Countable K} {V : Type} (d : gmap K V) (k : K) :
  raises_only lookup_or_shape_error (getitem d k).
Proof. unfold getitem. destruct (d !! k); simpl; [done|by left]. Qed.

Lemma raises_index {A : Type} (l : list A) (i : nat) :
  raises_only lookup_or_shape_error (index l i).
Proof. unfold index. destruct (l !! i); simpl; [done|right; by left]. Qed.

Lemma raises_dot (A B : matrix) : raises_only lookup_or_shape_error (dot A B).
Proof. unfold dot. case_decide; simpl; [done|right; by right]. Qed.

Lemma raises_mat_sub (A B : matrix) : raises_only lookup_or_shape_error (mat_sub A B).
Proof. unfold mat_sub. case_decide; simpl; [done|right; by right]. Qed.

Lemma raises_take_rows (A : matrix) (idx : list nat) :
  raises_only lookup_or_shape_error (take_rows A idx).
Proof.
  unfold take_rows. apply raises_only_bind; [|done].
  apply raises_only_mapM. intros i. apply raises_index.
Qed.

Lemma raises_take_cols (A : matrix) (idx : list nat) :
  raises_only lookup_or_shape_error (take_cols A idx).
Proof. unfold take_cols. case_decide; simpl; [done|right; by left]. Qed.

Lemma raises_connectivity_matrix (edges : list (nat * nat)) :
  raises_only lookup_or_shape_error (connectivity_matrix edges).
Proof. destruct edges; simpl; [right; by right|done]. Qed.

Lemma raises_edge_indices (k_i : gmap nat nat) (edges : list (nat * nat)) :
  raises_only lookup_or_shape_error (edge_indices k_i edges).
Proof.
  unfold edge_indices. apply raises_only_mapM. intros uv.
  apply raises_only_bind; [apply raises_getitem|]. intros i _.
  apply raises_only_bind; [apply raises_getitem|]. done.
Qed.

Lemma raises_ordered_edges (force : ForceDiagram) (form : FormDiagram) :
  raises_only lookup_or_shape_error (ForceDiagram.ordered_edges force form).
Proof. apply raises_edge_indices. Qed.

Lemma raises_write_xy (k_i : gmap nat nat) (xy : matrix) (kv : nat * vertex_attr) :
  raises_only lookup_or_shape_error (write_xy k_i xy kv).
Proof.
  unfold write_xy.
  apply raises_only_bind; [apply raises_getitem|]. intros i _.
  apply raises_only_bind; [apply raises_index|]. intros r _.
  apply raises_only_bind; [apply raises_index|]. intros x _.
  apply raises_only_bind; [apply raises_index|]. done.
Qed.

Lemma raises_spsolve_with_known (spsolve : matrix -> matrix -> matrix)
    (A b x : matrix) (known : list nat) :
  raises_only lookup_or_shape_error (spsolve_with_known spsolve A b x known).
Proof.
  unfold spsolve_with_known.
  apply raises_only_bind; [apply raises_take_rows|]. intros Au _.
  apply raises_only_bind; [apply raises_take_cols|]. intros A11 _.
  apply raises_only_bind; [apply raises_take_cols|]. intros A12 _.
  apply raises_only_bind; [apply raises_take_rows|]. intros bu _.
  apply raises_only_bind; [apply raises_take_rows|]. intros xk _.
  apply raises_only_bind; [apply raises_dot|]. intros A12xk _.
  apply raises_only_bind; [apply raises_mat_sub|]. intros b' _.
  case_decide; simpl; [done|right; by right].
Qed.

Lemma raises_force_update_from_form (spsolve : matrix -> matrix -> matrix)
    (force : ForceDiagram) (form : FormDiagram) :
  raises_only lookup_or_shape_error (force_update_from_form spsolve force form).
Proof.
  unfold force_update_from_form.
  apply raises_only_bind; [apply raises_edge_indices|]. intros edges _.
  apply raises_only_bind; [apply raises_connectivity_matrix|]. intros C _.
  apply raises_only_bind; [apply raises_dot|]. intros uv _.
  apply raises_only_bind; [apply raises_getitem|]. intros anchor _.
  apply raises_only_bind; [apply raises_ordered_edges|]. intros _edges _.
  apply raises_only_bind; [apply raises_connectivity_matrix|]. intros _C _.
  apply raises_only_bind; [apply raises_dot|]. intros _CtC _.
  apply raises_only_bind; [apply raises_dot|]. intros _CtQ _.
  apply raises_only_bind; [apply raises_dot|]. intros _CtQuv _.
  apply raises_only_bind; [apply raises_spsolve_with_known|]. intros _xy _.
  apply raises_only_bind; [|done].
  apply raises_only_mapM. intros kv. apply raises_write_xy.
Qed.

(** ** The force diagram from the form diagram *)

(** C4 (as amended).  [force_update_from_form] never fails with
    [UnderdeterminedSystemError], whether the connectivity of the force
    diagram spans its vertices or not: the exceptions it raises are those of
    the lookups and of the shape checks, and the system is handed to the
    sparse solver as it is. *)
Theorem force_update_from_form_never_underdetermined
    (spsolve : matrix -> matrix -> matrix) (force : ForceDiagram) (form : FormDiagram) :
  raises_only lookup_or_shape_error (force_update_from_form spsolve force form) /\
  force_update_from_form spsolve force form <> Raise UnderdeterminedSystemError.
Proof.
  pose proof (raises_force_update_from_form spsolve force form) as H.
  split; [exact H|]. intros Heq. rewrite Heq in H. simpl in H.
  destruct H as [H|[H|H]]; discriminate H.
Qed.

(** C4, the counterexample.  The force diagram [split_force] has a component
    that the anchor does not reach, and the update of it from [two_bars]
    returns. *)
Lemma force_update_from_form_disconnected_returns :
  spans_from_anchor split_force = false /\
  force_update_from_form spsolve_exact split_force two_bars
  <> Raise UnderdeterminedSystemError.
Proof. split; [vm_compute; reflexivity | vm_compute; discriminate]. Qed.

Lemma scatter_lookup_other {A : Type} (x : list A) (idx : list nat) (vals : list A) (i : nat) :
  i ∉ idx -> scatter x idx vals !! i = x !! i.
Proof.
  unfold scatter. revert x vals.
  induction idx as [|j idx IH]; intros x vals Hi; [reflexivity|].
  destruct vals as [|v vals]; [reflexivity|]. simpl.
  apply not_elem_of_cons in Hi as [Hne Hi].
  rewrite IH by done. by apply list_lookup_insert_ne.
Qed.

(** The solve with known rows is one call of the sparse solver: the known
    rows of [x] are kept, and the other rows hold what the solver returns. *)
Lemma spsolve_with_known_once (spsolve : matrix -> matrix -> matrix)
    (A b x x' : matrix) (known : list nat) :
  spsolve_with_known spsolve A b x known = Ok x' ->
  (exists A11 b',
     rows x' = scatter (rows x) (range_minus (nrows x) known) (rows (spsolve A11 b'))) /\
  (forall i, i ∈ known -> rows x' !! i = rows x !! i).
Proof.
  unfold spsolve_with_known. intros H.
  apply bind_Ok_inv in H as (Au & _ & H).
  apply bind_Ok_inv in H as (A11 & _ & H).
  apply bind_Ok_inv in H as (A12 & _ & H).
  apply bind_Ok_inv in H as (bu & _ & H).
  apply bind_Ok_inv in H as (xk & _ & H).
  apply bind_Ok_inv in H as (A12xk & _ & H).
  apply bind_Ok_inv in H as (b' & _ & H).
  case_decide; [|discriminate]. injection H as <-. cbn [rows]. split.
  - eauto.
  - intros i Hi. apply scatter_lookup_other.
    unfold range_minus. rewrite list_elem_of_difference. tauto.
Qed.

Lemma set_xy_same (attr : vertex_attr) : set_xy attr (v_x attr) (v_y attr) = attr.
Proof. by destruct attr. Qed.

(** C3.  A call of [force_update_from_form] that returns has solved the
    system [(C^t C) xy_force = C^t Q uv_form] once, by one call of the sparse
    solver with the row of the anchor as the known part: this row, and the
    anchor vertex with it, is left as it was, and the coordinates of every
    vertex of the force diagram are written from the solution. *)
Theorem force_update_from_form_single_solve
    (spsolve : matrix -> matrix -> matrix)
    (force force' : ForceDiagram) (form : FormDiagram) :
  force_update_from_form spsolve force form = Ok force' ->
  exists (A b _xy : matrix) (anchor : nat),
    reciprocal_system force form = Ok (A, b) /\
    ForceDiagram.key_index force !! ForceDiagram.anchor force = Some anchor /\
    spsolve_with_known spsolve A b (ForceDiagram.xy force) [anchor] = Ok _xy /\
    (exists A11 b',
       rows _xy = scatter (rows (ForceDiagram.xy force))
                          (range_minus (nrows (ForceDiagram.xy force)) [anchor])
                          (rows (spsolve A11 b'))) /\
    rows _xy !! anchor = rows (ForceDiagram.xy force) !! anchor /\
    force_vertex force' !! anchor = force_vertex force !! anchor /\
    Forall2 (fun kv kv' =>
               exists i x y r,
                 ForceDiagram.key_index force !! kv.1 = Some i /\
                 rows _xy !! i = Some (x :: y :: r) /\
                 kv' = (kv.1, set_xy kv.2 x y))
            (force_vertex force) (force_vertex force') /\
    force_edge force' = force_edge force /\
    force_anchor force' = force_anchor force.
Proof.
  unfold force_update_from_form. intros H.
  apply bind_Ok_inv in H as (edges & Hedges & H).
  apply bind_Ok_inv in H as (C & HC & H).
  apply bind_Ok_inv in H as (uv & Huv & H).
  apply bind_Ok_inv in H as (anchor & Hanchor & H).
  apply bind_Ok_inv in H as (_edges & H_edges & H).
  apply bind_Ok_inv in H as (_C & H_C & H).
  apply bind_Ok_inv in H as (_CtC & H_CtC & H).
  apply bind_Ok_inv in H as (_CtQ & H_CtQ & H).
  apply bind_Ok_inv in H as (_CtQuv & H_CtQuv & H).
  apply bind_Ok_inv in H as (_xy & H_xy & H).
  apply bind_Ok_inv in H as (vertex' & Hvertex & H).
  injection H as <-. cbn [force_vertex force_edge force_anchor].
  assert (ForceDiagram.key_index force !! ForceDiagram.anchor force = Some anchor)
    as Hk.
  { unfold getitem in Hanchor.
    destruct (ForceDiagram.key_index force !! ForceDiagram.anchor force);
      [by injection Hanchor as ->|discriminate]. }
  destruct (spsolve_with_known_once _ _ _ _ _ _ H_xy) as [Honce Hkept].
  specialize (Hkept anchor ltac:(by left)).
  assert (Forall2 (fun kv kv' =>
               exists i x y r,
                 ForceDiagram.key_index force !! kv.1 = Some i /\
                 rows _xy !! i = Some (x :: y :: r) /\
                 kv' = (kv.1, set_xy kv.2 x y))
            (force_vertex force) vertex') as Hwritten.
  { apply mapM_result_Forall2 in Hvertex.
    eapply Forall2_impl; [exact Hvertex|].
    intros kv kv'. unfold write_xy. intros Hw.
    apply bind_Ok_inv in Hw as (i & Hi & Hw).
    apply bind_Ok_inv in Hw as (r & Hr & Hw).
    apply bind_Ok_inv in Hw as (x & Hx & Hw).
    apply bind_Ok_inv in Hw as (y & Hy & Hw).
    injection Hw as <-.
    unfold getitem in Hi. destruct (_ !! kv.1) as [i'|] eqn:Hi'; [|discriminate].
    injection Hi as ->.
    unfold index in Hr. destruct (rows _xy !! i) as [r'|] eqn:Hr'; [|discriminate].
    injection Hr as ->.
    destruct r as [|x0 [|y0 r]]; try discriminate.
    injection Hx as ->. injection Hy as ->.
    exists i, x, y, r. done. }
  exists _CtC, _CtQuv, _xy, anchor. repeat split; try done.
  - unfold reciprocal_system.
    rewrite Hedges, bind_Ok, HC, bind_Ok, Huv, bind_Ok, H_edges, bind_Ok, H_C, bind_Ok.
    cbv zeta. rewrite H_CtC, bind_Ok, H_CtQ, bind_Ok, H_CtQuv, bind_Ok. done.
  - destruct (key_index_of_lookup _ _ _ Hk) as [attr Hattr].
    unfold ForceDiagram.anchor in *.
    destruct (Forall2_lookup_l _ _ _ _ _ Hwritten Hattr)
      as (kv' & Hkv' & i & x & y & r & Hi & Hrow & ->).
    cbn [fst snd] in *. rewrite Hk in Hi. injection Hi as <-.
    rewrite Hkept in Hrow. unfold ForceDiagram.xy, xy_of in Hrow. cbn [rows] in Hrow.
    rewrite list_lookup_fmap, Hattr in Hrow. injection Hrow as <- <- _.
    rewrite Hkv', Hattr, set_xy_same. done.
Qed.

(** C3, a witness: the force diagram of the tripod. *)
Lemma force_update_from_form_single_solve_witness :
  exists force',
    force_update_from_form spsolve_exact tripod_force tripod = Ok force' /\
    exists (A b _xy : matrix) (anchor : nat),
      reciprocal_system tripod_force tripod = Ok (A, b) /\
      ForceDiagram.key_index tripod_force !! ForceDiagram.anchor tripod_force
      = Some anchor /\
      spsolve_with_known spsolve_exact A b (ForceDiagram.xy tripod_force) [anchor]
      = Ok _xy /\
      (exists A11 b',
         rows _xy = scatter (rows (ForceDiagram.xy tripod_force))
                            (range_minus (nrows (ForceDiagram.xy tripod_force)) [anchor])
                            (rows (spsolve_exact A11 b'))) /\
      rows _xy !! anchor = rows (ForceDiagram.xy tripod_force) !! anchor /\
      force_vertex force' !! anchor = force_vertex tripod_force !! anchor /\
      Forall2 (fun kv kv' =>
                 exists i x y r,
                   ForceDiagram.key_index tripod_force !! kv.1 = Some i /\
                   rows _xy !! i = Some (x :: y :: r) /\
                   kv' = (kv.1, set_xy kv.2 x y))
              (force_vertex tripod_force) (force_vertex force') /\
      force_edge force' = force_edge tripod_force /\
      force_anchor force' = force_anchor tripod_force.
Proof.
  eexists. split; [vm_compute; reflexivity|].
  apply (force_update_from_form_single_solve spsolve_exact tripod_force).
  vm_compute. reflexivity.
Defined.

(** ** The form diagram from the force diagram *)

Lemma index_Ok {A : Type} (l : list A) (i : nat) (x : A) :
  index l i = Ok x -> l !! i = Some x.
Proof. unfold index. destruct (l !! i); [by intros [= ->]|discriminate]. Qed.

Lemma getitem_Ok `{Countable K} {V : Type} (d : gmap K V) (k : K) (v : V) :
  getitem d k = Ok v -> d !! k = Some v.
Proof. unfold getitem. destruct (d !! k); [by intros [= ->]|discriminate]. Qed.

Lemma lookup_map {A B : Type} (f : A -> B) (l : list A) (i : nat) :
  map f l !! i = f <$> l !! i.
Proof. apply (list_lookup_fmap f l i). Qed.

(** The quotient of two arrays of lengths is the quotient entry by entry,
    also where numpy broadcasts an array of one entry. *)
Lemma broadcast_div_lookup (x y q : list Q) (e : nat) (xe ye qe : Q) :
  broadcast_div x y = Ok q ->
  x !! e = Some xe -> y !! e = Some ye -> q !! e = Some qe ->
  qe = (xe / ye)%Q.
Proof.
  unfold broadcast_div. intros Hq Hx Hy Hqe. case_decide as Hlen.
  - injection Hq as <-.
    apply lookup_zip_with_Some in Hqe as (x' & y' & -> & Hx' & Hy'). congruence.
  - destruct x as [|x0 [|x1 x]]; [by destruct y as [|y0 [|y1 y]]| |].
    + injection Hq as <-. rewrite lookup_map, Hy in Hqe.
      destruct e; [|done]. simpl in Hx, Hqe. congruence.
    + destruct y as [|y0 [|y1 y]]; try discriminate.
      injection Hq as <-. destruct e; [|done]. simpl in Hx, Hy, Hqe. congruence.
Qed.

(** C2.  After a call of [form_update_from_force] that returns, every edge
    of the form diagram carries the angle [a] between its vector and the
    vector of its reciprocal edge, its length [l], and, with [_l] the length
    of the reciprocal edge: the force [_l] and the force density [_l / l] if
    [a < 90] holds strictly, and the force [- _l] and the force density
    [- (_l / l)] otherwise, also at 90 degrees.  The vector of the edge is
    taken at the coordinates [xy] that the relaxation returned and that
    the call writes to the vertices of the form diagram; the vector of the
    reciprocal edge is taken in the force diagram. *)
Theorem form_update_from_force_sign
    (sqrt : Q -> Q) (angle_vectors_xy : list Q -> list Q -> Q)
    (update_form_from_force :
       matrix -> matrix -> list nat -> list nat -> gmap nat (list nat) ->
       gmap (nat * nat) nat -> matrix -> nat -> result matrix)
    (form form' : FormDiagram) (force force' : ForceDiagram) (kmax : nat) :
  form_update_from_force sqrt angle_vectors_xy update_form_from_force form force kmax
  = Ok (form', force') ->
  exists (xy uv _uv : matrix) (free leaves : list nat) (i_j : gmap nat (list nat))
         (ij_e : gmap (nat * nat) nat) (_C : matrix),
    update_form_from_force (FormDiagram.xy form) (ForceDiagram.xy force)
                           free leaves i_j ij_e _C kmax = Ok xy /\
    Forall2 (moved_to (FormDiagram.key_index form) xy)
            (form_vertex form) (form_vertex form') /\
    form_edge_vectors form xy = Ok uv /\
    force_edge_vectors force form = Ok _uv /\
    Forall2 (fun ke ke' =>
               ke'.1 = ke.1 /\
               exists e u _u,
                 FormDiagram.uv_index form !! ke.1 = Some e /\
                 rows uv !! e = Some u /\
                 rows _uv !! e = Some _u /\
                 sign_rule (angle_vectors_xy u _u) (length_vector sqrt u)
                           (length_vector sqrt _u) ke'.2)
            (form_edge form) (form_edge form').
Proof.
  unfold form_update_from_force. intros H.
  do 2 (apply bind_Ok_inv in H as (? & _ & H)).
  apply bind_Ok_inv in H as (edges & Hedges & H).
  apply bind_Ok_inv in H as (C & HC & H).
  do 3 (apply bind_Ok_inv in H as (? & _ & H)).
  apply bind_Ok_inv in H as (_edges & H_edges & H).
  apply bind_Ok_inv in H as (? & _ & H).
  apply bind_Ok_inv in H as (_C & H_C & H).
  apply bind_Ok_inv in H as (xy & Hxy & H).
  apply bind_Ok_inv in H as (uv & Huv & H).
  apply bind_Ok_inv in H as (_uv & H_uv & H).
  apply bind_Ok_inv in H as (a & Ha & H).
  apply bind_Ok_inv in H as (q & Hq & H).
  apply bind_Ok_inv in H as (vertex' & Hvertex & H).
  apply bind_Ok_inv in H as (edge' & Hedge & H).
  apply bind_Ok_inv in H as (_edge' & _ & H).
  injection H as <- <-. cbn [form_vertex form_edge].
  exists xy, uv, _uv. do 5 eexists. split; [exact Hxy|]. split; [|split; [|split]].
  { apply mapM_result_Forall2 in Hvertex.
    eapply Forall2_impl; [exact Hvertex|]. intros kv kv'. unfold write_xy. intros Hw.
    apply bind_Ok_inv in Hw as (i & Hi & Hw). apply getitem_Ok in Hi.
    apply bind_Ok_inv in Hw as (r & Hr & Hw). apply index_Ok in Hr.
    apply bind_Ok_inv in Hw as (vx & Hx & Hw). apply index_Ok in Hx.
    apply bind_Ok_inv in Hw as (vy & Hy & Hw). apply index_Ok in Hy.
    injection Hw as <-.
    destruct r as [|vx' [|vy' r]]; try discriminate. cbn in Hx, Hy.
    injection Hx as ->. injection Hy as ->.
    by exists i, vx, vy, r. }
  { unfold form_edge_vectors. rewrite Hedges, bind_Ok, HC, bind_Ok. exact Huv. }
  { unfold force_edge_vectors. rewrite H_edges, bind_Ok, H_C, bind_Ok. exact H_uv. }
  apply mapM_result_Forall2 in Hedge, Ha.
  eapply Forall2_impl; [exact Hedge|].
  intros [key attr] ke'. unfold write_form_edge. cbn [fst snd]. intros Hw.
  apply bind_Ok_inv in Hw as (e & He & Hw). apply getitem_Ok in He.
  apply bind_Ok_inv in Hw as (le & Hle & Hw). apply index_Ok in Hle.
  apply bind_Ok_inv in Hw as (ae & Hae & Hw). apply index_Ok in Hae.
  destruct (Forall2_lookup_r _ _ _ _ _ Ha Hae) as (i & Hi & Hangle).
  apply lookup_seq in Hi as [Hi _]. simpl in Hi. subst i.
  apply bind_Ok_inv in Hangle as (u & Hu & Hangle). apply index_Ok in Hu.
  apply bind_Ok_inv in Hangle as (_u & H_u & Hangle). apply index_Ok in H_u.
  injection Hangle as <-.
  unfold normrow in *. rewrite lookup_map, Hu in Hle. injection Hle as <-.
  assert (forall _le qe,
             index (map (length_vector sqrt) (rows _uv)) e = Ok _le ->
             index q e = Ok qe ->
             _le = length_vector sqrt _u /\
             qe = (length_vector sqrt _u / length_vector sqrt u)%Q) as Hlq.
  { intros _le qe H_le Hqe. apply index_Ok in H_le, Hqe.
    pose proof H_le as H_le'. rewrite lookup_map, H_u in H_le'.
    injection H_le' as <-. split; [done|].
    eapply (broadcast_div_lookup _ _ _ e); [exact Hq|exact H_le| |exact Hqe].
    by rewrite lookup_map, Hu. }
  destruct (Qltb (angle_vectors_xy u _u) 90) eqn:Hlt;
    apply bind_Ok_inv in Hw as (_le & H_le & Hw);
    apply bind_Ok_inv in Hw as (qe & Hqe & Hw);
    injection Hw as <-; destruct (Hlq _ _ H_le Hqe) as [-> ->];
    (split; [reflexivity|]); exists e, u, _u;
    unfold sign_rule; cbn; rewrite Hlt; done.
Qed.

(** C2, a witness: the tripod and its force diagram, without relaxation. *)
Lemma form_update_from_force_sign_witness :
  exists form' force',
    form_update_from_force sqrt_exact angle_axis no_relaxation tripod tripod_force 100
    = Ok (form', force') /\
    exists (xy uv _uv : matrix) (free leaves : list nat) (i_j : gmap nat (list nat))
           (ij_e : gmap (nat * nat) nat) (_C : matrix),
      no_relaxation (FormDiagram.xy tripod) (ForceDiagram.xy tripod_force)
                    free leaves i_j ij_e _C 100 = Ok xy /\
      Forall2 (moved_to (FormDiagram.key_index tripod) xy)
              (form_vertex tripod) (form_vertex form') /\
      form_edge_vectors tripod xy = Ok uv /\
      force_edge_vectors tripod_force tripod = Ok _uv /\
      Forall2 (fun ke ke' =>
                 ke'.1 = ke.1 /\
                 exists e u _u,
                   FormDiagram.uv_index tripod !! ke.1 = Some e /\
                   rows uv !! e = Some u /\
                   rows _uv !! e = Some _u /\
                   sign_rule (angle_axis u _u) (length_vector sqrt_exact u)
                             (length_vector sqrt_exact _u) ke'.2)
              (form_edge tripod) (form_edge form').
Proof.
  eexists _, _. split; [vm_compute; reflexivity|].
  eapply (form_update_from_force_sign sqrt_exact angle_axis no_relaxation
            tripod _ tripod_force _ 100).
  vm_compute. reflexivity.
Defined.

(** The boundary of the sign convention: the third bar of the tripod is
    perpendicular to its reciprocal edge, of length 10, and its force and its
    force density are written with the minus sign. *)
Example form_update_from_force_right_angle :
  (fun r => (fun ke => (e_a ke.2, e_f ke.2, e_q ke.2)) <$> form_edge r.1 !! 2)
  <$> form_update_from_force sqrt_exact angle_axis no_relaxation tripod tripod_force 100
  = Ok (Some (90%Q, (-10)%Q, (-10 # 5)%Q)).
Proof. vm_compute. reflexivity. Qed.

(** ** The triangle *)

Lemma Qmult_1_l_eq (x : Q) : (1 * x)%Q = x.
Proof. destruct x as [[|p|p] d]; reflexivity. Qed.

(** The vectors of the edges of the triangle are the differences of the
    coordinates of their end points. *)
Lemma triangle_edge_vector (c0 c1 c2 : Q) :
  (dot_vec [-1; 1; 0] [c0; c1; c2] == c1 - c0)%Q /\
  (dot_vec [0; -1; 1] [c0; c1; c2] == c2 - c1)%Q /\
  (dot_vec [1; 0; -1] [c0; c1; c2] == c0 - c2)%Q.
Proof. unfold dot_vec. simpl. repeat split; ring. Qed.

(** C7.  On the triangle with the vertex 0 fixed at the origin, all of whose
    edges are independent with the force density 1, [form_update_q_from_qind]
    returns, keeps every force density at 1, as no edge is dependent, and
    writes on every edge its current length as the length [l] and as the
    force [f]. *)
Theorem form_update_q_from_qind_triangle (sqrt : Q -> Q) (x1 y1 x2 y2 f l a : Q) :
  exists l01 l12 l20 : Q,
    edge_lengths sqrt (triangle x1 y1 x2 y2 f l a) = Ok [l01; l12; l20] /\
    [l01; l12; l20]
    = map (length_vector sqrt)
          [[dot_vec [-1; 1; 0] [0; x1; x2]; dot_vec [-1; 1; 0] [0; y1; y2]];
           [dot_vec [0; -1; 1] [0; x1; x2]; dot_vec [0; -1; 1] [0; y1; y2]];
           [dot_vec [1; 0; -1] [0; x1; x2]; dot_vec [1; 0; -1] [0; y1; y2]]]%Q /\
    form_update_q_from_qind sqrt (triangle x1 y1 x2 y2 f l a)
    = Ok {| form_vertex := form_vertex (triangle x1 y1 x2 y2 f l a);
            form_edge := [independent_edge 0 1 l01 l01 a;
                          independent_edge 1 2 l12 l12 a;
                          independent_edge 2 0 l20 l20 a] |}.
Proof.
  eexists _, _, _. split; [|split; [reflexivity|]].
  - vm_compute. reflexivity.
  - assert (forall u v len, independent_edge u v len len a
                            = independent_edge u v (1 * len)%Q len a) as H.
    { intros u v len. by rewrite Qmult_1_l_eq. }
    rewrite (H 0 1), (H 1 2), (H 2 0).
    vm_compute. reflexivity.
Qed.

(** * Further properties *)

(** ** The independent edges *)

Lemma mapM_index_difference_sublist {A : Type} (pre l : list A) (k : list nat) (r : list A) :
  mapM_result (index (pre ++ l)) (list_difference (seq (length pre) (length l)) k) = Ok r ->
  r `sublist_of` l.
Proof.
  revert pre r. induction l as [|x l IH]; intros pre r H.
  - injection H as <-. constructor.
  - cbn [length seq list_difference] in H.
    assert (pre ++ x :: l = (pre ++ [x]) ++ l) as Happ by (by rewrite <- app_assoc).
    assert (S (length pre) = length (pre ++ [x])) as Hlen
      by (rewrite length_app; simpl; lia).
    destruct (decide_rel elem_of (length pre) k).
    + apply sublist_cons. apply (IH (pre ++ [x])). by rewrite <- Happ, <- Hlen.
    + cbn [mapM_result] in H.
      apply bind_Ok_inv in H as (y & Hy & H).
      apply bind_Ok_inv in H as (ys & Hys & H). injection H as <-.
      apply index_Ok in Hy. rewrite list_lookup_middle in Hy by done.
      injection Hy as <-. apply sublist_skip.
      apply (IH (pre ++ [x])). by rewrite <- Happ, <- Hlen.
Qed.

(** The independent edges that [form_identify_dof] returns are edges of the
    form diagram, as pairs of vertex indices, and none is returned more often
    than it occurs among the edges: up to the order, the returned list is a
    part of the list of the edges.  The order is not stated. *)
Theorem form_identify_dof_edges_of_form (form : FormDiagram) (k m : Z)
    (ind : list (nat * nat)) :
  form_identify_dof form = Ok (k, m, ind) ->
  exists edges,
    edge_indices (FormDiagram.key_index form) (FormDiagram.edges form) = Ok edges /\
    ind ⊆+ edges.
Proof.
  unfold form_identify_dof. intros H.
  apply bind_Ok_inv in H as (fixed & _ & H).
  apply bind_Ok_inv in H as (edges & Hedges & H).
  apply bind_Ok_inv in H as (C & HC & H).
  apply bind_Ok_inv in H as (E & HE & H).
  destruct (dof E) as [k' m'].
  apply bind_Ok_inv in H as (ind' & Hind & H). injection H as <- <- <-.
  exists edges. split; [done|]. apply sublist_submseteq.
  apply (mapM_index_difference_sublist [] edges (pivots (rref E))).
  unfold nonpivots, range_minus in Hind. cbn [rref ncols] in Hind.
  apply equilibrium_matrix_ncols in HE. apply connectivity_matrix_nrows in HC.
  cbn [app length]. rewrite <- HC, <- HE. exact Hind.
Qed.

Lemma form_identify_dof_edges_of_form_witness :
  exists edges,
    edge_indices (FormDiagram.key_index fan) (FormDiagram.edges fan) = Ok edges /\
    [(0, 3); (0, 4)] ⊆+ edges.
Proof.
  apply (form_identify_dof_edges_of_form fan 2%Z 0%Z [(0, 3); (0, 4)]).
  vm_compute. reflexivity.
Defined.

(** ** Force, force density and length *)

(** After a call of [form_update_q_from_qind] that returns, every structural
    edge carries its current length as [l], and its force is the product of
    its force density and this length: [f = q * l]. *)
Theorem form_update_q_from_qind_force (sqrt : Q -> Q) (form form' : FormDiagram) :
  form_update_q_from_qind sqrt form = Ok form' ->
  exists lengths,
    edge_lengths sqrt form = Ok lengths /\
    Forall2 (fun ke ke' =>
               is_edge ke.2 = true ->
               exists i len,
                 FormDiagram.uv_index form !! ke.1 = Some i /\
                 lengths !! i = Some len /\
                 e_l ke'.2 = len /\
                 e_f ke'.2 = (e_q ke'.2 * len)%Q)
            (form_edge form) (form_edge form').
Proof.
  unfold form_update_q_from_qind. intros H.
  apply bind_Ok_inv in H as (fixed & _ & H).
  apply bind_Ok_inv in H as (ind & _ & H).
  apply bind_Ok_inv in H as (edges & Hedges & H).
  apply bind_Ok_inv in H as (C & HC & H).
  apply bind_Ok_inv in H as (E & _ & H).
  apply bind_Ok_inv in H as (q & _ & H).
  apply bind_Ok_inv in H as (uv & Huv & H).
  apply bind_Ok_inv in H as (edge' & Hedge & H).
  injection H as <-. cbn [form_edge].
  exists (normrow sqrt uv). split.
  { unfold edge_lengths. by rewrite Hedges, bind_Ok, HC, bind_Ok, Huv, bind_Ok. }
  apply mapM_result_Forall2 in Hedge.
  eapply Forall2_impl; [exact Hedge|].
  intros [key attr] ke'. unfold write_qfl. cbn [fst snd]. intros Hw Hs.
  rewrite Hs in Hw.
  apply bind_Ok_inv in Hw as (i & Hi & Hw). apply getitem_Ok in Hi.
  apply bind_Ok_inv in Hw as (qi & Hqi & Hw). apply index_Ok in Hqi.
  apply bind_Ok_inv in Hw as (fi & Hfi & Hw). apply index_Ok in Hfi.
  apply bind_Ok_inv in Hw as (li & Hli & Hw). apply index_Ok in Hli.
  injection Hw as <-. cbn.
  apply lookup_zip_with_Some in Hfi as (qi' & li' & -> & Hqi' & Hli').
  exists i, li. repeat split; try done. congruence.
Qed.

Lemma form_update_q_from_qind_force_witness :
  exists form',
    form_update_q_from_qind sqrt_exact tripod = Ok form' /\
    exists lengths,
      edge_lengths sqrt_exact tripod = Ok lengths /\
      Forall2 (fun ke ke' =>
                 is_edge ke.2 = true ->
                 exists i len,
                   FormDiagram.uv_index tripod !! ke.1 = Some i /\
                   lengths !! i = Some len /\
                   e_l ke'.2 = len /\
                   e_f ke'.2 = (e_q ke'.2 * len)%Q)
              (form_edge tripod) (form_edge form').
Proof.
  eexists. split; [vm_compute; reflexivity|].
  apply (form_update_q_from_qind_force sqrt_exact tripod).
  vm_compute. reflexivity.
Defined.

(** ** What the update of the form diagram writes *)

(** The three write loops of a call of [form_update_from_force] that
    returns, with the arrays they read. *)
Lemma form_update_from_force_loops
    (sqrt : Q -> Q) (angle_vectors_xy : list Q -> list Q -> Q)
    (update_form_from_force :
       matrix -> matrix -> list nat -> list nat -> gmap nat (list nat) ->
       gmap (nat * nat) nat -> matrix -> nat -> result matrix)
    (form form' : FormDiagram) (force force' : ForceDiagram) (kmax : nat) :
  form_update_from_force sqrt angle_vectors_xy update_form_from_force form force kmax
  = Ok (form', force') ->
  exists (xy : matrix) (l a _l q : list Q) (_uv_e : gmap (nat * nat) nat),
    broadcast_div _l l = Ok q /\
    mapM_result (write_xy (FormDiagram.key_index form) xy) (form_vertex form)
    = Ok (form_vertex form') /\
    mapM_result (write_form_edge (FormDiagram.uv_index form) l a _l q) (form_edge form)
    = Ok (form_edge form') /\
    mapM_result (write_force_edge _uv_e a _l) (force_edge force) = Ok (force_edge force') /\
    force_vertex force' = force_vertex force /\
    force_anchor force' = force_anchor force.
Proof.
  unfold form_update_from_force. intros H.
  do 11 (apply bind_Ok_inv in H as (? & _ & H)).
  apply bind_Ok_inv in H as (uv & _ & H).
  apply bind_Ok_inv in H as (_uv & _ & H).
  apply bind_Ok_inv in H as (a & _ & H).
  apply bind_Ok_inv in H as (q & Hq & H).
  apply bind_Ok_inv in H as (vertex' & Hvertex & H).
  apply bind_Ok_inv in H as (edge' & Hedge & H).
  apply bind_Ok_inv in H as (_edge' & H_edge & H).
  injection H as <- <-. cbn [form_vertex form_edge force_vertex force_edge force_anchor].
  eexists _, _, _, _, _, _. repeat split; eassumption.
Qed.

(** What the loop over the edges of the form diagram writes on one edge. *)
Lemma write_form_edge_Ok (uv_e : gmap (nat * nat) nat) (l a _l q : list Q)
    (ke ke' : (nat * nat) * edge_attr) :
  write_form_edge uv_e l a _l q ke = Ok ke' ->
  exists e le ae _le qe,
    uv_e !! ke.1 = Some e /\ l !! e = Some le /\ a !! e = Some ae /\
    _l !! e = Some _le /\ q !! e = Some qe /\
    ke' = (ke.1, set_fq (set_la ke.2 le ae)
                        (if Qltb ae 90 then _le else (- _le)%Q)
                        (if Qltb ae 90 then qe else (- qe)%Q)).
Proof.
  unfold write_form_edge. intros Hw.
  apply bind_Ok_inv in Hw as (e & He & Hw). apply getitem_Ok in He.
  apply bind_Ok_inv in Hw as (le & Hle & Hw). apply index_Ok in Hle.
  apply bind_Ok_inv in Hw as (ae & Hae & Hw). apply index_Ok in Hae.
  exists e, le, ae.
  destruct (Qltb ae 90);
    apply bind_Ok_inv in Hw as (_le & H_le & Hw); apply index_Ok in H_le;
    apply bind_Ok_inv in Hw as (qe & Hqe & Hw); apply index_Ok in Hqe;
    injection Hw as <-; exists _le, qe; done.
Qed.

(** A call of [form_update_from_force] that returns does not move the force
    diagram: its vertices and its anchor are as before, and its edges keep
    their keys, force densities, forces and flags, only [a] and [l] being
    written.  In the form diagram the vertices keep their keys and their
    [is_fixed] flags, and the edges their keys and flags. *)
Theorem form_update_from_force_frame
    (sqrt : Q -> Q) (angle_vectors_xy : list Q -> list Q -> Q)
    (update_form_from_force :
       matrix -> matrix -> list nat -> list nat -> gmap nat (list nat) ->
       gmap (nat * nat) nat -> matrix -> nat -> result matrix)
    (form form' : FormDiagram) (force force' : ForceDiagram) (kmax : nat) :
  form_update_from_force sqrt angle_vectors_xy update_form_from_force form force kmax
  = Ok (form', force') ->
  force_vertex force' = force_vertex force /\
  force_anchor force' = force_anchor force /\
  Forall2 (fun ke ke' =>
             ke'.1 = ke.1 /\ e_q ke'.2 = e_q ke.2 /\ e_f ke'.2 = e_f ke.2 /\
             is_edge ke'.2 = is_edge ke.2 /\ is_ind ke'.2 = is_ind ke.2)
          (force_edge force) (force_edge force') /\
  Forall2 (fun kv kv' => kv'.1 = kv.1 /\ is_fixed kv'.2 = is_fixed kv.2)
          (form_vertex form) (form_vertex form') /\
  Forall2 (fun ke ke' =>
             ke'.1 = ke.1 /\ is_edge ke'.2 = is_edge ke.2 /\ is_ind ke'.2 = is_ind ke.2)
          (form_edge form) (form_edge form').
Proof.
  intros H. apply form_update_from_force_loops in H
    as (xy & l & a & _l & q & _uv_e & _ & Hvertex & Hedge & H_edge & Hfv & Hfa).
  apply mapM_result_Forall2 in Hvertex, Hedge, H_edge.
  repeat split; try done.
  - eapply Forall2_impl; [exact H_edge|]. intros ke ke'. unfold write_force_edge.
    intros Hw.
    apply bind_Ok_inv in Hw as (e & _ & Hw).
    apply bind_Ok_inv in Hw as (ae & _ & Hw).
    apply bind_Ok_inv in Hw as (_le & _ & Hw).
    injection Hw as <-. done.
  - eapply Forall2_impl; [exact Hvertex|]. intros kv kv'. unfold write_xy.
    intros Hw.
    apply bind_Ok_inv in Hw as (i & _ & Hw).
    apply bind_Ok_inv in Hw as (r & _ & Hw).
    apply bind_Ok_inv in Hw as (x & _ & Hw).
    apply bind_Ok_inv in Hw as (y & _ & Hw).
    injection Hw as <-. done.
  - eapply Forall2_impl; [exact Hedge|]. intros ke ke' Hw.
    apply write_form_edge_Ok in Hw as (e & le & ae & _le & qe & _ & _ & _ & _ & _ & ->).
    done.
Qed.

Lemma form_update_from_force_frame_witness :
  exists form' force',
    form_update_from_force sqrt_exact angle_axis no_relaxation tripod tripod_force 100
    = Ok (form', force') /\
    force_vertex force' = force_vertex tripod_force /\
    force_anchor force' = force_anchor tripod_force /\
    Forall2 (fun ke ke' =>
               ke'.1 = ke.1 /\ e_q ke'.2 = e_q ke.2 /\ e_f ke'.2 = e_f ke.2 /\
               is_edge ke'.2 = is_edge ke.2 /\ is_ind ke'.2 = is_ind ke.2)
            (force_edge tripod_force) (force_edge force') /\
    Forall2 (fun kv kv' => kv'.1 = kv.1 /\ is_fixed kv'.2 = is_fixed kv.2)
            (form_vertex tripod) (form_vertex form') /\
    Forall2 (fun ke ke' =>
               ke'.1 = ke.1 /\ is_edge ke'.2 = is_edge ke.2 /\ is_ind ke'.2 = is_ind ke.2)
            (form_edge tripod) (form_edge form').
Proof.
  eexists _, _. split; [vm_compute; reflexivity|].
  eapply (form_update_from_force_frame sqrt_exact angle_axis no_relaxation
            tripod _ tripod_force _ 100).
  vm_compute. reflexivity.
Defined.

(** After a call of [form_update_from_force] that returns, the force density
    of every edge of the form diagram whose length is not zero is the
    quotient of its force by its length, [q = f / l]: the quotient [_l / l]
    that is stored, with the sign of the force. *)
Theorem form_update_from_force_density_quotient
    (sqrt : Q -> Q) (angle_vectors_xy : list Q -> list Q -> Q)
    (update_form_from_force :
       matrix -> matrix -> list nat -> list nat -> gmap nat (list nat) ->
       gmap (nat * nat) nat -> matrix -> nat -> result matrix)
    (form form' : FormDiagram) (force force' : ForceDiagram) (kmax : nat) :
  form_update_from_force sqrt angle_vectors_xy update_form_from_force form force kmax
  = Ok (form', force') ->
  Forall (fun ke' => ~ (e_l ke'.2 == 0)%Q ->
                     (e_q ke'.2 == e_f ke'.2 / e_l ke'.2)%Q)
         (form_edge form').
Proof.
  intros H. apply form_update_from_force_loops in H
    as (xy & l & a & _l & q & _uv_e & Hq & _ & Hedge & _).
  apply mapM_result_Forall2 in Hedge.
  apply Forall_forall. intros ke' Hin.
  apply list_elem_of_lookup in Hin as [i Hi].
  destruct (Forall2_lookup_r _ _ _ _ _ Hedge Hi) as (ke & _ & Hw).
  apply write_form_edge_Ok in Hw
    as (e & le & ae & _le & qe & _ & Hle & _ & H_le & Hqe & ->).
  rewrite (broadcast_div_lookup _ _ _ _ _ _ _ Hq H_le Hle Hqe).
  cbn. intros Hnz. destruct (Qltb ae 90); [reflexivity|field; exact Hnz].
Qed.

Lemma form_update_from_force_density_quotient_witness :
  exists form' force',
    form_update_from_force sqrt_exact angle_axis no_relaxation tripod tripod_force 100
    = Ok (form', force') /\
    Forall (fun ke' => ~ (e_l ke'.2 == 0)%Q ->
                       (e_q ke'.2 == e_f ke'.2 / e_l ke'.2)%Q)
           (form_edge form').
Proof.
  eexists _, _. split; [vm_compute; reflexivity|].
  eapply (form_update_from_force_density_quotient sqrt_exact angle_axis no_relaxation
            tripod _ tripod_force _ 100).
  vm_compute. reflexivity.
Defined.

(** ** Shapes in the update of the force diagram *)

Lemma dot_Ok_inner (A B M : matrix) : dot A B = Ok M -> ncols A = nrows B.
Proof. unfold dot. case_decide; [done|discriminate]. Qed.

(** [force_update_from_form] returns only if the force diagram has as many
    edges as the form diagram: the product [C^t Q] of its connectivity
    matrix and of the force densities of the form diagram is refused
    otherwise, and nothing is written. *)
Theorem force_update_from_form_edge_counts
    (spsolve : matrix -> matrix -> matrix)
    (force force' : ForceDiagram) (form : FormDiagram) :
  force_update_from_form spsolve force form = Ok force' ->
  length (force_edge force) = length (form_edge form) /\
  length (force_vertex force') = length (force_vertex force).
Proof.
  unfold force_update_from_form. intros H.
  apply bind_Ok_inv in H as (edges & _ & H).
  apply bind_Ok_inv in H as (C & _ & H).
  apply bind_Ok_inv in H as (uv & _ & H).
  apply bind_Ok_inv in H as (anchor & _ & H).
  apply bind_Ok_inv in H as (_edges & H_edges & H).
  apply bind_Ok_inv in H as (_C & H_C & H).
  apply bind_Ok_inv in H as (_CtC & _ & H).
  apply bind_Ok_inv in H as (_CtQ & H_CtQ & H).
  apply bind_Ok_inv in H as (_CtQuv & _ & H).
  apply bind_Ok_inv in H as (_xy & _ & H).
  apply bind_Ok_inv in H as (vertex' & Hvertex & H).
  injection H as <-. cbn [force_vertex]. split.
  - apply dot_Ok_inner in H_CtQ. cbn [transpose ncols] in H_CtQ.
    apply connectivity_matrix_nrows in H_C.
    apply mapM_result_length in H_edges. rewrite length_map in H_edges.
    unfold nrows, diags, FormDiagram.q in H_CtQ. cbn [rows] in H_CtQ.
    rewrite length_imap, length_map in H_CtQ. unfold nrows in H_C. lia.
  - by apply mapM_result_length in Hvertex.
Qed.

Lemma force_update_from_form_edge_counts_witness :
  exists force',
    force_update_from_form spsolve_exact tripod_force tripod = Ok force' /\
    length (force_edge tripod_force) = length (form_edge tripod) /\
    length (force_vertex force') = length (force_vertex tripod_force).
Proof.
  eexists. split; [vm_compute; reflexivity|].
  apply (force_update_from_form_edge_counts spsolve_exact tripod_force).
  vm_compute. reflexivity.
Defined.

(** A force diagram with one edge more than the form diagram is refused. *)
Example force_update_from_form_edge_mismatch :
  force_update_from_form spsolve_exact tripod_force two_bars = Raise ValueError.
Proof. vm_compute. reflexivity. Qed.

(** ** More on the constraints *)

Lemma compute_constraint_unknown (c : constraint) :
  FormDiagram.key_index (constraint_form c) !! constraint_vertex c = None ->
  compute_constraint c = Raise KeyError.
Proof.
  intros Hidx.
  destruct c as [form vertex|form vertex];
    cbn [constraint_form constraint_vertex compute_constraint] in *;
    unfold getitem; by rewrite Hidx.
Qed.

Lemma stack_constraints_unknown (form : FormDiagram) (cs : list constraint)
    (jac res : matrix) :
  ncols jac = 2 * FormDiagram.number_of_vertices form ->
  ncols res = 1 ->
  Forall (fun c => constraint_form c = form) cs ->
  Exists (fun c => FormDiagram.key_index form !! constraint_vertex c = None) cs ->
  stack_constraints cs jac res = Raise KeyError.
Proof.
  intros Hjac Hres Hcs. revert jac res Hjac Hres.
  induction Hcs as [|c cs Hform _ IH]; intros jac res Hjac Hres Hex.
  - inversion Hex.
  - cbn [stack_constraints].
    destruct (FormDiagram.key_index form !! constraint_vertex c) as [idx|] eqn:Hidx.
    + rewrite <- Hform in Hidx at 1.
      rewrite (compute_constraint_one_hot c idx Hidx), bind_Ok. cbn [fst snd].
      assert (number_of_cols c = ncols jac) as Hc.
      { unfold number_of_cols. rewrite Hform. lia. }
      unfold vstack. cbn [ncols rows].
      rewrite !decide_True by lia. rewrite !bind_Ok.
      apply IH; [done|done|].
      apply Exists_cons in Hex as [Hex|Hex]; [|done].
      rewrite Hform in Hidx. congruence.
    + rewrite <- Hform in Hidx at 1.
      by rewrite (compute_constraint_unknown c Hidx).
Qed.

(** A constraint on a key that is not a vertex of the form diagram is found
    when the constraints are computed, not when it is added: if the
    constraints of a collection are built against one form diagram and the
    vertex of one of them is missing from it, [compute_constraints] raises
    [KeyError]. *)
Theorem compute_constraints_unknown_vertex (form : FormDiagram) (cs : list constraint) :
  Forall (fun c => constraint_form c = form) cs ->
  Exists (fun c => FormDiagram.key_index form !! constraint_vertex c = None) cs ->
  compute_constraints (foldl add_constraint new_collection cs) = Raise KeyError.
Proof.
  intros Hcs Hex. unfold compute_constraints. rewrite constraints_of_adds.
  destruct cs as [|c0 cs0] eqn:Ecs; [inversion Hex|]. rewrite <- Ecs in *.
  assert (index cs 0 = Ok c0) as -> by (rewrite Ecs; reflexivity).
  rewrite bind_Ok. apply (stack_constraints_unknown form); try done.
  rewrite Ecs in Hcs. apply Forall_cons in Hcs as [Hform _].
  cbn [zeros ncols]. unfold number_of_cols. by rewrite Hform.
Qed.

Lemma compute_constraints_unknown_vertex_witness :
  compute_constraints
    (foldl add_constraint new_collection [HorizontalFix tripod 1; VerticalFix tripod 7])
  = Raise KeyError.
Proof.
  apply (compute_constraints_unknown_vertex tripod).
  - repeat constructor.
  - right. left. vm_compute. reflexivity.
Defined.

(** The column that a constraint fixes lies inside the Jacobian, and two
    constraints of one form diagram fix the same column only if they are the
    same constraint: the x-columns and the y-columns do not overlap, and two
    vertices never share an index.  So the rows of constraints on distinct
    vertices are distinct unit rows. *)
Theorem fixed_column_injective (form : FormDiagram) (c1 c2 : constraint) (i1 i2 : nat) :
  constraint_form c1 = form -> constraint_form c2 = form ->
  FormDiagram.key_index form !! constraint_vertex c1 = Some i1 ->
  FormDiagram.key_index form !! constraint_vertex c2 = Some i2 ->
  fixed_column c1 i1 < number_of_cols c1 /\
  (fixed_column c1 i1 = fixed_column c2 i2 -> c1 = c2).
Proof.
  intros Hf1 Hf2 H1 H2.
  destruct (key_index_of_lookup _ _ _ H1) as [a1 Ha1].
  destruct (key_index_of_lookup _ _ _ H2) as [a2 Ha2].
  pose proof (lookup_lt_Some _ _ _ Ha1) as Hlt1.
  pose proof (lookup_lt_Some _ _ _ Ha2) as Hlt2.
  assert (i1 = i2 -> constraint_vertex c1 = constraint_vertex c2) as Hinj.
  { intros ->. congruence. }
  unfold number_of_cols, FormDiagram.number_of_vertices. rewrite Hf1.
  destruct c1 as [f1 v1|f1 v1], c2 as [f2 v2|f2 v2];
    cbn [constraint_form constraint_vertex fixed_column] in *; subst f1 f2;
    unfold FormDiagram.number_of_vertices;
    (split; [lia|]); intros Heq; try lia.
  - f_equal. apply Hinj. lia.
  - f_equal. apply Hinj. lia.
Qed.

Lemma fixed_column_injective_witness :
  fixed_column (VerticalFix tripod 3) 3 < number_of_cols (VerticalFix tripod 3) /\
  (fixed_column (VerticalFix tripod 3) 3 = fixed_column (HorizontalFix tripod 1) 1 ->
   VerticalFix tripod 3 = HorizontalFix tripod 1).
Proof.
  apply (fixed_column_injective tripod (VerticalFix tripod 3) (HorizontalFix tripod 1) 3 1);
    reflexivity.
Defined.

Lemma compute_constraint_Ok (c : constraint) (j : matrix) (r : Q) :
  compute_constraint c = Ok (j, r) ->
  ncols j = number_of_cols c /\ r = 0%Q /\
  exists row, rows j = [row] /\ length row = number_of_cols c.
Proof.
  intros H.
  assert (forall idx row', setitem_row (zeros 1 (number_of_cols c)) idx 1%Q = Ok row' ->
            ncols row' = number_of_cols c /\
            exists row, rows row' = [row] /\ length row = number_of_cols c) as Hset.
  { intros idx row'. unfold setitem_row, zeros. cbn [ncols rows].
    case_decide; [|discriminate]. intros [= <-]. cbn. split; [done|].
    eexists. split; [done|]. by rewrite length_insert, length_replicate. }
  destruct c as [form vertex|form vertex]; cbn [compute_constraint] in H;
    apply bind_Ok_inv in H as (idx & _ & H);
    apply bind_Ok_inv in H as (row' & Hrow & H);
    injection H as <- <-; apply Hset in Hrow as [? ?]; done.
Qed.

Lemma stack_constraints_Ok (cs : list constraint) (jac res jac' res' : matrix) :
  stack_constraints cs jac res = Ok (jac', res') ->
  ncols jac' = ncols jac /\ ncols res' = ncols res /\
  Forall (fun c => number_of_cols c = ncols jac) cs /\
  (exists rs, rows jac' = rows jac ++ rs /\ length rs = length cs /\
              Forall (fun r => length r = ncols jac) rs) /\
  rows res' = rows res ++ replicate (length cs) [0%Q].
Proof.
  revert jac res. induction cs as [|c cs IH]; intros jac res H; cbn [stack_constraints] in H.
  - injection H as <- <-. repeat split; try done.
    + exists []. by rewrite app_nil_r.
    + by rewrite app_nil_r.
  - apply bind_Ok_inv in H as ([j r] & Hc & H).
    apply compute_constraint_Ok in Hc as (Hj & -> & row & Hrow & Hlen).
    apply bind_Ok_inv in H as (jac1 & Hjac1 & H).
    apply bind_Ok_inv in H as (res1 & Hres1 & H).
    cbn [fst snd] in *.
    unfold vstack in Hjac1, Hres1. repeat case_decide; try discriminate.
    injection Hjac1 as <-. injection Hres1 as <-.
    apply IH in H as (Hn & Hm & Hall & (rs & Hrs & Hlrs & Hfrs) & Hres).
    cbn [ncols rows] in *. repeat split; try done.
    + constructor; [lia|done].
    + exists (row :: rs). rewrite Hrs, Hrow, <- app_assoc. repeat split; try done.
      * cbn. lia.
      * constructor; [lia|done].
    + rewrite Hres, <- app_assoc. done.
Qed.

(** Whenever [compute_constraints] returns, the constraints of the
    collection agree on the number of columns, that is on the vertex count of
    their form diagrams; the Jacobian has one row for each constraint, every
    row of this width, and the residual is a column of as many zeros. *)
Theorem compute_constraints_Ok (cs : list constraint) (jac res : matrix) :
  compute_constraints (Collection cs) = Ok (jac, res) ->
  Forall (fun c => number_of_cols c = ncols jac) cs /\
  nrows jac = length cs /\
  Forall (fun r => length r = ncols jac) (rows jac) /\
  res = Mat 1 (replicate (length cs) [0%Q]).
Proof.
  unfold compute_constraints. cbn [constraints]. intros H.
  apply bind_Ok_inv in H as (c0 & _ & H).
  apply stack_constraints_Ok in H as (Hn & Hm & Hall & (rs & Hrs & Hlrs & Hfrs) & Hres).
  cbn [zeros ncols rows replicate app] in *.
  rewrite Hn. repeat split; try done.
  - unfold nrows. by rewrite Hrs.
  - by rewrite Hrs.
  - destruct res as [n r]. cbn in *. by subst.
Qed.

Lemma compute_constraints_Ok_witness :
  exists jac res,
    compute_constraints (Collection [VerticalFix tripod 2; HorizontalFix tripod 0])
    = Ok (jac, res) /\
    Forall (fun c => number_of_cols c = ncols jac)
           [VerticalFix tripod 2; HorizontalFix tripod 0] /\
    nrows jac = 2 /\
    Forall (fun r => length r = ncols jac) (rows jac) /\
    res = Mat 1 (replicate 2 [0%Q]).
Proof.
  eexists _, _. split; [vm_compute; reflexivity|].
  apply (compute_constraints_Ok [VerticalFix tripod 2; HorizontalFix tripod 0]).
  vm_compute. reflexivity.
Defined.

(** ** Row reduction *)

Lemma Qnz_false_iff (x : Q) : Qnz x = false <-> (x == 0)%Q.
Proof.
  unfold Qnz, Qeq. cbn [Qnum Qden]. rewrite negb_false_iff, Z.eqb_eq. lia.
Qed.

Lemma Qnz_proper (x y : Q) : (x == y)%Q -> Qnz x = Qnz y.
Proof.
  intros Hxy. destruct (Qnz x) eqn:Hx, (Qnz y) eqn:Hy; try done.
  - apply Qnz_false_iff in Hy. rewrite <- Hxy in Hy.
    apply Qnz_false_iff in Hy. congruence.
  - apply Qnz_false_iff in Hx. rewrite Hxy in Hx.
    apply Qnz_false_iff in Hx. congruence.
Qed.

Lemma Qnz_sub_zero (a c b : Q) : Qnz b = false -> Qnz (Qred (a - c * b)) = Qnz a.
Proof.
  intros Hb. apply Qnz_false_iff in Hb. apply Qnz_proper.
  rewrite Qred_correct, Hb. ring.
Qed.

Lemma Qnz_scale_zero (c b : Q) : Qnz b = false -> Qnz (Qred (c * b)) = false.
Proof.
  intros Hb. apply Qnz_false_iff in Hb. apply Qnz_false_iff.
  rewrite Qred_correct, Hb. ring.
Qed.

Lemma Qred_inv_mult (a : Q) : Qnz a = true -> Qred (/ a * a) = 1%Q.
Proof.
  intros Ha. change 1%Q with (Qred 1). apply Qred_complete.
  rewrite Qmult_comm. apply Qmult_inv_r. intros H0.
  apply Qnz_false_iff in H0. congruence.
Qed.

Lemma Qnz_sub_self (a : Q) : Qnz (Qred (a - a * 1)) = false.
Proof. apply Qnz_false_iff. rewrite Qred_correct. ring. Qed.

Lemma nth_row_scale (c : Q) (r : list Q) (x : nat) :
  x < length r -> nth x (row_scale c r) 0%Q = Qred (c * nth x r 0%Q).
Proof.
  intros Hx. unfold row_scale.
  destruct (lookup_lt_is_Some_2 r x Hx) as [v Hv].
  rewrite (nth_lookup_Some _ _ _ _ Hv).
  apply nth_lookup_Some. by rewrite lookup_map, Hv.
Qed.

Lemma nth_row_sub (c : Q) (p r : list Q) (x : nat) :
  x < length r -> x < length p ->
  nth x (row_sub c p r) 0%Q = Qred (nth x r 0%Q - c * nth x p 0%Q).
Proof.
  intros Hr Hp. unfold row_sub.
  destruct (lookup_lt_is_Some_2 r x Hr) as [v Hv].
  destruct (lookup_lt_is_Some_2 p x Hp) as [w Hw].
  rewrite (nth_lookup_Some _ _ _ _ Hv), (nth_lookup_Some _ _ _ _ Hw).
  apply nth_lookup_Some. apply lookup_zip_with_Some. eauto.
Qed.

Lemma first_nonzero_Some (j : nat) (r : list Q) (c : nat) :
  first_nonzero j r = Some c <->
  exists x, c = j + x /\ x < length r /\ Qnz (nth x r 0%Q) = true /\
            forall y, y < x -> Qnz (nth y r 0%Q) = false.
Proof.
  revert j. induction r as [|v r IH]; intros j; cbn [first_nonzero].
  - split; [done|]. intros (x & _ & Hx & _). simpl in Hx. lia.
  - destruct (Qnz v) eqn:Hv.
    + split.
      * intros [= <-]. exists 0. cbn. repeat split; [lia|lia|done|lia].
      * intros (x & -> & _ & Hx & Hbefore). destruct x as [|x]; [f_equal; lia|].
        specialize (Hbefore 0 ltac:(lia)). cbn in Hbefore. congruence.
    + rewrite IH. split.
      * intros (x & -> & Hlen & Hx & Hbefore). exists (S x). cbn.
        repeat split; [lia|lia|done|]. intros [|y] Hy; [done|]. apply Hbefore. lia.
      * intros (x & -> & Hlen & Hx & Hbefore). destruct x as [|x]; [cbn in Hx; congruence|].
        exists x. cbn in *. repeat split; [lia|lia|done|].
        intros y Hy. apply (Hbefore (S y)). lia.
Qed.

Lemma first_nonzero_None (r : list Q) (j : nat) :
  (forall x, x < length r -> Qnz (nth x r 0%Q) = false) -> first_nonzero j r = None.
Proof.
  intros Hz. destruct (first_nonzero j r) as [c|] eqn:Hc; [|done].
  apply first_nonzero_Some in Hc as (x & _ & Hx & Hnz & _).
  rewrite Hz in Hnz by done. discriminate.
Qed.

Lemma split_pivot_Some (j : nat) (todo : list (list Q)) (p : list Q) (rest : list (list Q)) :
  split_pivot j todo = Some (p, rest) ->
  Qnz (nth j p 0%Q) = true /\ length todo = S (length rest) /\
  forall P : list Q -> Prop, Forall P todo -> P p /\ Forall P rest.
Proof.
  revert p rest. induction todo as [|r todo IH]; intros p rest H; cbn [split_pivot] in H;
    [discriminate|].
  destruct (Qnz (nth j r 0%Q)) eqn:Hr.
  - injection H as <- <-. repeat split; try done.
    + by apply Forall_cons in H as [? ?].
    + by apply Forall_cons in H as [? ?].
  - destruct (split_pivot j todo) as [[p' rest']|]; [|discriminate].
    injection H as <- <-. destruct (IH _ _ eq_refl) as (Hp & Hlen & HP).
    repeat split; [done|cbn; lia| |].
    + intros. apply Forall_cons in H as [? H]. by apply HP in H as [? ?].
    + intros. apply Forall_cons in H as [? H]. apply HP in H as [? ?].
      by constructor.
Qed.

Lemma split_pivot_None (j : nat) (todo : list (list Q)) :
  split_pivot j todo = None -> Forall (fun r => Qnz (nth j r 0%Q) = false) todo.
Proof.
  induction todo as [|r todo IH]; cbn [split_pivot]; [constructor|].
  destruct (Qnz (nth j r 0%Q)) eqn:Hr; [discriminate|].
  destruct (split_pivot j todo) as [[p' rest']|]; [discriminate|].
  intros _. constructor; auto.
Qed.

Lemma omap_pivots_done (cs : list nat) (done : list (list Q)) :
  Forall2 (fun c r => first_nonzero 0 r = Some c) cs done ->
  omap (first_nonzero 0) done = cs.
Proof. induction 1 as [|c r cs done Hc _ IH]; cbn; [done|]. by rewrite Hc, IH. Qed.

Lemma omap_pivots_zero (todo : list (list Q)) :
  Forall (fun r => first_nonzero 0 r = None) todo -> omap (first_nonzero 0) todo = [].
Proof. induction 1 as [|r todo Hr _ IH]; cbn; [done|]. by rewrite Hr. Qed.

Lemma rref_from_pivots (N n j : nat) (done todo : list (list Q)) (cs : list nat) :
  j + n = N ->
  Forall (fun r => length r = N) done ->
  Forall (fun r => length r = N) todo ->
  Forall (zero_before j) todo ->
  Forall2 (fun c r => first_nonzero 0 r = Some c) cs done ->
  NoDup cs -> Forall (fun c => c < j) cs ->
  NoDup (omap (first_nonzero 0) (rref_from n j done todo)) /\
  Forall (fun c => c < N) (omap (first_nonzero 0) (rref_from n j done todo)) /\
  length (omap (first_nonzero 0) (rref_from n j done todo)) <= length done + length todo.
Proof.
  revert j done todo cs.
  induction n as [|n IH]; intros j done todo cs Hj Hdone Htodo Hzero Hcs Hnd Hlt;
    cbn [rref_from].
  - rewrite omap_app, (omap_pivots_done _ _ Hcs), omap_pivots_zero, app_nil_r.
    + repeat split; [done| |].
      * eapply Forall_impl; [exact Hlt|]. cbn. lia.
      * apply Forall2_length in Hcs. lia.
    + apply Forall_forall. intros r Hr.
      apply first_nonzero_None. intros x Hx.
      rewrite Forall_forall in Hzero, Htodo.
      apply (Hzero r Hr). rewrite (Htodo r Hr) in Hx. lia.
  - destruct (split_pivot j todo) as [[p rest]|] eqn:Hsplit.
    + apply split_pivot_Some in Hsplit as (Hpj & Hlen & HP).
      destruct (HP _ Htodo) as [Hplen Hrestlen].
      destruct (HP _ Hzero) as [Hpzero Hrestzero].
      set (p' := row_scale (/ nth j p 0%Q) p).
      assert (length p' = N) as Hp'len by (unfold p', row_scale; by rewrite length_map).
      assert (forall x, x < j -> Qnz (nth x p' 0%Q) = false) as Hp'zero.
      { intros x Hx. unfold p'. rewrite nth_row_scale by lia.
        apply Qnz_scale_zero. by apply Hpzero. }
      assert (nth j p' 0%Q = 1%Q) as Hp'j.
      { unfold p'. rewrite nth_row_scale by lia. by apply Qred_inv_mult. }
      assert (forall r, length r = N ->
                length (row_sub (nth j r 0%Q) p' r) = N) as Hsublen.
      { intros r Hr. unfold row_sub. rewrite length_zip_with. lia. }
      assert (forall r x, length r = N -> x < j ->
                Qnz (nth x (row_sub (nth j r 0%Q) p' r) 0%Q) = Qnz (nth x r 0%Q)) as Hsub.
      { intros r x Hr Hx. rewrite nth_row_sub by lia.
        apply Qnz_sub_zero. by apply Hp'zero. }
      edestruct (IH (S j)
                   (map (fun r => row_sub (nth j r 0%Q) p' r) done ++ [p'])
                   (map (fun r => row_sub (nth j r 0%Q) p' r) rest)
                   (cs ++ [j])) as (H1 & H2 & H3).
      * lia.
      * apply Forall_app. split; [|by constructor].
        apply Forall_forall. intros r' Hr'. apply list_elem_of_In, in_map_iff in Hr'
          as (r & <- & Hr). apply list_elem_of_In in Hr.
        rewrite Forall_forall in Hdone. apply Hsublen. by apply Hdone.
      * apply Forall_forall. intros r' Hr'. apply list_elem_of_In, in_map_iff in Hr'
          as (r & <- & Hr). apply list_elem_of_In in Hr.
        rewrite Forall_forall in Hrestlen. apply Hsublen. by apply Hrestlen.
      * apply Forall_forall. intros r' Hr'. apply list_elem_of_In, in_map_iff in Hr'
          as (r & <- & Hr). apply list_elem_of_In in Hr.
        rewrite Forall_forall in Hrestlen, Hrestzero.
        intros x Hx. destruct (decide (x = j)) as [->|Hne].
        -- pose proof (Hrestlen r Hr) as Hrlen.
           rewrite nth_row_sub by lia.
           rewrite Hp'j. apply Qnz_sub_self.
        -- rewrite Hsub by (auto; lia). apply (Hrestzero r Hr). lia.
      * apply Forall2_app.
        -- clear IH Hnd. induction Hcs as [|c r cs done Hc Hcs' IHcs]; [constructor|].
           apply Forall_cons in Hdone as [Hr Hdone]. apply Forall_cons in Hlt as [Hcj Hlt].
           constructor; [|by apply IHcs].
           apply first_nonzero_Some in Hc as (x & Hx & Hxlen & Hxnz & Hbefore).
           cbn in Hx. subst x. apply first_nonzero_Some. exists c.
           repeat split; [rewrite Hsublen by done; lia| |].
           ++ by rewrite Hsub.
           ++ intros y Hy. rewrite Hsub by (auto; lia). by apply Hbefore.
        -- constructor; [|constructor]. apply first_nonzero_Some. exists j.
           repeat split; [lia| |done].
           rewrite Hp'j. reflexivity.
      * apply NoDup_app. repeat split; [done| |apply NoDup_singleton].
        intros x Hx Hxj. apply list_elem_of_singleton in Hxj. subst x.
        rewrite Forall_forall in Hlt. specialize (Hlt j Hx). lia.
      * apply Forall_app. split; [|constructor; [lia|constructor]].
        eapply Forall_impl; [exact Hlt|]. cbn. lia.
      * repeat split; [done|done|].
        rewrite length_app, !length_map in H3. cbn in H3. lia.
    + apply split_pivot_None in Hsplit.
      apply (IH (S j) done todo cs); try done; [lia| |].
      * rewrite Forall_forall in Hzero, Hsplit |- *. intros r Hr x Hx.
        destruct (decide (x = j)) as [->|Hne]; [by apply Hsplit|].
        apply (Hzero r Hr). lia.
      * eapply Forall_impl; [exact Hlt|]. cbn. lia.
Qed.

Lemma dot_rows_length (A B M : matrix) :
  dot A B = Ok M -> Forall (fun r => length r = ncols M) (rows M).
Proof.
  unfold dot. case_decide; [|discriminate]. intros [= <-]. cbn [ncols rows].
  apply Forall_forall. intros r Hr. apply list_elem_of_In, in_map_iff in Hr as (r0 & <- & _).
  unfold transpose. cbn [rows]. by rewrite !length_map, length_seq.
Qed.

Lemma equilibrium_matrix_rows_length (C xy E : matrix) (free : list nat) :
  equilibrium_matrix C xy free = Ok E -> Forall (fun r => length r = ncols E) (rows E).
Proof.
  unfold equilibrium_matrix. intros H.
  apply bind_Ok_inv in H as (uv & _ & H).
  apply bind_Ok_inv in H as (Cti & _ & H).
  apply bind_Ok_inv in H as (EU & HEU & H).
  apply bind_Ok_inv in H as (EV & HEV & H).
  apply dot_rows_length in HEU, HEV.
  unfold vstack in H. case_decide as Hn; [|discriminate]. injection H as <-.
  cbn [ncols rows]. apply Forall_app. split; [done|]. by rewrite Hn.
Qed.

Lemma rref_from_length (n j : nat) (done todo : list (list Q)) :
  length (rref_from n j done todo) = length done + length todo.
Proof.
  revert j done todo. induction n as [|n IH]; intros j done todo; cbn [rref_from].
  - by rewrite length_app.
  - destruct (split_pivot j todo) as [[p rest]|] eqn:Hsplit; [|apply IH].
    apply split_pivot_Some in Hsplit as (_ & Hlen & _).
    rewrite IH, length_app, !length_map. cbn. lia.
Qed.

(** The pivots of the reduced row-echelon form of a matrix lie in distinct
    columns of the matrix, at most one in each row. *)
Lemma pivots_rref (A : matrix) :
  Forall (fun r => length r = ncols A) (rows A) ->
  NoDup (pivots (rref A)) /\ Forall (fun c => c < ncols A) (pivots (rref A)) /\
  length (pivots (rref A)) <= nrows A.
Proof.
  intros HA. unfold pivots, rref. cbn [rows].
  apply (rref_from_pivots (ncols A) (ncols A) 0 [] (rows A) []);
    [lia|constructor|exact HA| |constructor|constructor|constructor].
  apply Forall_forall. intros r _ x Hx. lia.
Qed.

Lemma length_range_minus (n : nat) (ps : list nat) :
  NoDup ps -> Forall (fun c => c < n) ps ->
  length (range_minus n ps) + length ps = n.
Proof.
  intros Hnd Hlt. unfold range_minus. rewrite list_difference_filter.
  assert (filter (fun x : nat => ~ (x ∉ ps)) (seq 0 n) ≡ₚ ps) as Hperm.
  { apply NoDup_Permutation; [apply NoDup_filter, NoDup_seq|done|].
    intros x. rewrite list_elem_of_filter, elem_of_seq.
    rewrite Forall_forall in Hlt. split.
    - intros [Hx _]. by destruct (decide (x ∈ ps)).
    - intros Hx. specialize (Hlt x Hx). split; [tauto|lia]. }
  rewrite <- Hperm, <- length_app, filter_app_complement. apply length_seq.
Qed.

(** The degrees of freedom that [form_count_dof] returns are not negative,
    and the number [k] of states of self-stress is at most the number of
    edges. *)
Theorem form_count_dof_bounds (form : FormDiagram) (k m : Z) :
  form_count_dof form = Ok (k, m) ->
  (0 <= k <= Z.of_nat (FormDiagram.number_of_edges form))%Z /\ (0 <= m)%Z.
Proof.
  unfold form_count_dof. intros H.
  apply bind_Ok_inv in H as (fixed & _ & H).
  apply bind_Ok_inv in H as (edges & Hedges & H).
  apply bind_Ok_inv in H as (C & HC & H).
  apply bind_Ok_inv in H as (E & HE & H).
  destruct (dof E) as [k' m'] eqn:Hdof. injection H as <- <-.
  unfold dof, rank in Hdof. injection Hdof as <- <-.
  destruct (pivots_rref E (equilibrium_matrix_rows_length _ _ _ _ HE))
    as (Hnd & Hlt & Hrows).
  pose proof (length_range_minus _ _ Hnd Hlt) as Hcount.
  apply equilibrium_matrix_ncols in HE. apply connectivity_matrix_nrows in HC.
  apply mapM_result_length in Hedges.
  unfold FormDiagram.number_of_edges, FormDiagram.edges in *.
  rewrite length_map in Hedges. lia.
Qed.

(** [form_identify_dof] returns as many independent edges as it counts
    states of self-stress: the length of [ind] is [k]. *)
Theorem form_identify_dof_count (form : FormDiagram) (k m : Z) (ind : list (nat * nat)) :
  form_identify_dof form = Ok (k, m, ind) -> Z.of_nat (length ind) = k.
Proof.
  unfold form_identify_dof. intros H.
  apply bind_Ok_inv in H as (fixed & _ & H).
  apply bind_Ok_inv in H as (edges & Hedges & H).
  apply bind_Ok_inv in H as (C & HC & H).
  apply bind_Ok_inv in H as (E & HE & H).
  destruct (dof E) as [k' m'] eqn:Hdof.
  apply bind_Ok_inv in H as (ind' & Hind & H). injection H as <- <- <-.
  unfold dof, rank in Hdof. injection Hdof as <- _.
  destruct (pivots_rref E (equilibrium_matrix_rows_length _ _ _ _ HE))
    as (Hnd & Hlt & _).
  pose proof (length_range_minus _ _ Hnd Hlt) as Hcount.
  apply mapM_result_length in Hind. unfold nonpivots in Hind. cbn [rref ncols] in *.
  lia.
Qed.

Lemma form_count_dof_bounds_witness :
  (0 <= 1 <= Z.of_nat (FormDiagram.number_of_edges tripod))%Z /\ (0 <= 0)%Z.
Proof.
  apply (form_count_dof_bounds tripod 1%Z 0%Z). vm_compute. reflexivity.
Defined.

Lemma form_identify_dof_count_witness : Z.of_nat (length [(0, 3)]) = 1%Z.
Proof.
  apply (form_identify_dof_count tripod 1%Z 0%Z [(0, 3)]). vm_compute. reflexivity.
Defined.

(** ** The solution of the reciprocal system

    Sums of products, and the rows that [spsolve_with_known] fills. *)

Lemma Qsum_app (l1 l2 : list Q) : (Qsum (l1 ++ l2) == Qsum l1 + Qsum l2)%Q.
Proof.
  induction l1 as [|x l1 IH]; unfold Qsum in *; cbn [app foldr]; [ring|].
  rewrite IH. ring.
Qed.

Lemma Qsum_Permutation (l1 l2 : list Q) : l1 ≡ₚ l2 -> (Qsum l1 == Qsum l2)%Q.
Proof.
  induction 1 as [|x l1 l2 _ IH|x y l|l1 l2 l3 _ IH1 _ IH2]; unfold Qsum in *;
    cbn [foldr].
  - reflexivity.
  - by rewrite IH.
  - ring.
  - by rewrite IH1.
Qed.

Lemma zip_with_nth (r y : list Q) (n : nat) :
  length r = n -> length y = n ->
  zip_with Qmult r y = map (fun j => nth j r 0 * nth j y 0)%Q (seq 0 n).
Proof.
  intros Hr Hy. apply list_eq. intros j.
  rewrite lookup_zip_with, lookup_map.
  destruct (decide (j < n)) as [Hj|Hj].
  - rewrite lookup_seq_lt by done. cbn.
    destruct (lookup_lt_is_Some_2 r j ltac:(lia)) as [v Hv].
    destruct (lookup_lt_is_Some_2 y j ltac:(lia)) as [w Hw].
    rewrite Hv, Hw. cbn.
    by rewrite (nth_lookup_Some _ _ _ _ Hv), (nth_lookup_Some _ _ _ _ Hw).
  - rewrite lookup_seq_ge by lia. cbn.
    rewrite (lookup_ge_None_2 r j) by lia. done.
Qed.

Lemma seq_split_known (n a : nat) : a < n -> seq 0 n ≡ₚ range_minus n [a] ++ [a].
Proof.
  intros Ha. unfold range_minus. rewrite list_difference_filter.
  assert (filter (fun x : nat => ~ (x ∉ [a])) (seq 0 n) ≡ₚ [a]) as Hperm.
  { apply NoDup_Permutation; [apply NoDup_filter, NoDup_seq|apply NoDup_singleton|].
    intros x. split.
    - intros Hx. apply list_elem_of_filter in Hx as [Hx _].
      destruct (decide (x = a)) as [->|Hne]; [by left|].
      exfalso. apply Hx. intros Hin. apply list_elem_of_In in Hin.
      destruct Hin as [Hin|[]]. congruence.
    - intros Hx. apply list_elem_of_In in Hx. destruct Hx as [<-|[]].
      apply list_elem_of_filter. split; [|apply elem_of_seq; lia].
      intros Hx. apply Hx. by left. }
  rewrite <- Hperm. symmetry. apply filter_app_complement.
Qed.

Lemma scatter_length {A : Type} (x : list A) (idx : list nat) (vals : list A) :
  length (scatter x idx vals) = length x.
Proof.
  unfold scatter. revert x vals. induction idx as [|j idx IH]; intros x vals; [done|].
  destruct vals as [|v vals]; [done|]. cbn. by rewrite IH, length_insert.
Qed.

Lemma scatter_lookup_idx {A : Type} (x : list A) (idx : list nat) (vals : list A)
    (t i : nat) :
  NoDup idx -> length idx = length vals -> Forall (fun j => j < length x) idx ->
  idx !! t = Some i -> scatter x idx vals !! i = vals !! t.
Proof.
  revert x vals t. induction idx as [|j idx IH]; intros x vals t Hnd Hlen Hlt Ht; [done|].
  destruct vals as [|v vals]; [done|].
  apply NoDup_cons in Hnd as [Hj Hnd]. apply Forall_cons in Hlt as [Hjx Hlt].
  change (scatter x (j :: idx) (v :: vals)) with (scatter (<[j:=v]> x) idx vals).
  destruct t as [|t]; cbn in Ht.
  - injection Ht as <-. rewrite scatter_lookup_other by done.
    by rewrite list_lookup_insert_eq.
  - change ((v :: vals) !! S t) with (vals !! t).
    apply IH; try done; [by injection Hlen|].
    eapply Forall_impl; [exact Hlt|]. cbn. intros. by rewrite length_insert.
Qed.

Lemma spsolve_with_known_reduced (spsolve : matrix -> matrix -> matrix)
    (A b x x' : matrix) (known : list nat) :
  spsolve_with_known spsolve A b x known = Ok x' ->
  exists A11 b',
    reduced_system A b x known = Ok (A11, b') /\
    nrows (spsolve A11 b') = length (range_minus (nrows x) known) /\
    Forall (fun r => length r = ncols x) (rows (spsolve A11 b')) /\
    x' = Mat (ncols x) (scatter (rows x) (range_minus (nrows x) known)
                                (rows (spsolve A11 b'))).
Proof.
  unfold spsolve_with_known, reduced_system. cbv zeta. intros H.
  apply bind_Ok_inv in H as (Au & -> & H). rewrite bind_Ok.
  apply bind_Ok_inv in H as (A11 & -> & H). rewrite bind_Ok.
  apply bind_Ok_inv in H as (A12 & -> & H). rewrite bind_Ok.
  apply bind_Ok_inv in H as (bu & -> & H). rewrite bind_Ok.
  apply bind_Ok_inv in H as (xk & -> & H). rewrite bind_Ok.
  apply bind_Ok_inv in H as (A12xk & -> & H). rewrite bind_Ok.
  apply bind_Ok_inv in H as (b' & -> & H). rewrite bind_Ok.
  destruct (decide _) as [[Hn Hr]|]; [|done]. injection H as <-.
  by exists A11, b'.
Qed.

Lemma Qsum_cons (x : Q) (l : list Q) : Qsum (x :: l) = (x + Qsum l)%Q.
Proof. reflexivity. Qed.

(** The product of a row and a column as a sum over the positions of the
    column: a row that is shorter counts as zero where it ends. *)
Lemma dot_vec_nth (r y : list Q) :
  (dot_vec r y == Qsum (map (fun j => nth j r 0 * nth j y 0)%Q (seq 0 (length y))))%Q.
Proof.
  revert r. induction y as [|w y IH]; intros r.
  - destruct r; reflexivity.
  - cbn [length seq map]. rewrite <- seq_shift, map_map, Qsum_cons.
    destruct r as [|v r].
    + cbn [nth]. clear IH.
      assert (forall l, Qsum (map (fun x => 0 * nth x y 0)%Q l) == 0)%Q as ->.
      { induction l as [|x l IHl]; [reflexivity|].
        cbn [map]. rewrite Qsum_cons, IHl. ring. }
      unfold dot_vec. cbn [zip_with]. change (Qsum []) with 0%Q. ring.
    + unfold dot_vec in *. cbn [zip_with nth]. rewrite Qsum_cons, IH. reflexivity.
Qed.

Lemma range_minus_NoDup (n : nat) (xs : list nat) : NoDup (range_minus n xs).
Proof. apply NoDup_list_difference, NoDup_seq. Qed.

(** If the solver returns a solution of the reduced system, the array that
    [spsolve_with_known] fills satisfies the row of [A x = b] of every
    unknown. *)
Lemma reduced_system_solution (A b x A11 b' sol : matrix) (a : nat) :
  reduced_system A b x [a] = Ok (A11, b') ->
  Forall (fun r => length r = ncols x) (rows b) ->
  nrows sol = length (range_minus (nrows x) [a]) ->
  Forall (fun r => length r = ncols x) (rows sol) ->
  solves A11 sol b' ->
  forall i k ri rb,
    i <> a -> i < nrows x -> k < ncols x ->
    rows A !! i = Some ri -> rows b !! i = Some rb ->
    (dot_vec ri (col (Mat (ncols x)
                          (scatter (rows x) (range_minus (nrows x) [a]) (rows sol))) k)
     == nth k rb 0)%Q.
Proof.
  unfold reduced_system. cbv zeta. set (U := range_minus (nrows x) [a]).
  intros H Hb Hsoln Hsolr (M & Hdot & Heq) i k ri rb Hia Hi Hk Hri Hrb.
  apply bind_Ok_inv in H as (Au & HAu & H).
  apply bind_Ok_inv in H as (A11' & HA11 & H).
  apply bind_Ok_inv in H as (A12 & HA12 & H).
  apply bind_Ok_inv in H as (bu & Hbu & H).
  apply bind_Ok_inv in H as (xk & Hxk & H).
  apply bind_Ok_inv in H as (A12xk & HA12xk & H).
  apply bind_Ok_inv in H as (b'' & Hb' & H). injection H as -> ->.
  unfold take_rows in HAu, Hbu, Hxk.
  apply bind_Ok_inv in HAu as (rs & Hrs & [= <-]).
  apply bind_Ok_inv in Hbu as (bs & Hbs & [= <-]).
  apply bind_Ok_inv in Hxk as (xs & Hxs & [= <-]).
  cbn [mapM_result] in Hxs.
  apply bind_Ok_inv in Hxs as (xa & Hxa & Hxs). rewrite bind_Ok in Hxs.
  injection Hxs as <-. apply index_Ok in Hxa.
  unfold take_cols in HA11, HA12. cbn [ncols rows] in HA11, HA12.
  destruct (decide _) as [_|] in HA11; [|discriminate]. injection HA11 as <-.
  destruct (decide _) as [_|] in HA12; [|discriminate]. injection HA12 as <-.
  unfold dot in HA12xk. destruct (decide _) as [_|] in HA12xk; [|discriminate].
  injection HA12xk as <-.
  unfold mat_sub in Hb'. destruct (decide _) as [_|] in Hb'; [|discriminate].
  injection Hb' as <-.
  unfold dot in Hdot. destruct (decide _) as [_|] in Hdot; [|discriminate].
  injection Hdot as <-. unfold mat_eq in Heq. cbn [rows ncols transpose] in Heq.
  (* the position of [i] among the unknowns *)
  assert (i ∈ U) as Hin.
  { unfold U, range_minus. apply list_elem_of_difference. split; [apply elem_of_seq; lia|].
    intros Hin. apply list_elem_of_In in Hin. destruct Hin as [?|[]]. congruence. }
  apply list_elem_of_lookup in Hin as [t Ht].
  destruct (mapM_result_lookup _ _ _ _ _ Hrs Ht) as (ri' & Hrst & Hri').
  apply index_Ok in Hri'. rewrite Hri in Hri'. injection Hri' as <-.
  destruct (mapM_result_lookup _ _ _ _ _ Hbs Ht) as (rb' & Hbst & Hrb').
  apply index_Ok in Hrb'. rewrite Hrb in Hrb'. injection Hrb' as <-.
  assert (a < nrows x) as Ha by (by apply lookup_lt_Some in Hxa).
  assert (length rb = ncols x) as Hrbl.
  { eapply Forall_forall in Hb; [exact Hb|]. by eapply list_elem_of_lookup_2. }
  (* the equation of the reduced system at [t], [k] *)
  eapply Forall2_lookup_lr in Heq; cycle 1.
  { rewrite lookup_map, lookup_map, Hrst. reflexivity. }
  { rewrite lookup_zip_with, Hbst. cbn. rewrite lookup_map, lookup_map, Hrst.
    reflexivity. }
  cbn [map] in Heq.
  assert (zip_with Qminus rb
            (map (fun c => dot_vec [nth a ri 0%Q] c)
                 (map (col (Mat (ncols x) [xa])) (seq 0 (ncols x)))) !! k
          = Some (nth k rb 0 - (nth a ri 0 * nth k xa 0 + 0))%Q) as Hbk.
  { rewrite lookup_zip_with.
    destruct (lookup_lt_is_Some_2 rb k ltac:(lia)) as [v Hv].
    rewrite Hv, (nth_lookup_Some _ _ _ _ Hv). cbn.
    rewrite !lookup_map, lookup_seq_lt by done. reflexivity. }
  destruct (Forall2_lookup_r _ _ _ _ _ Heq Hbk) as (m & Hm & Hmeq).
  rewrite !lookup_map in Hm.
  destruct (seq 0 (ncols sol) !! k) as [k'|] eqn:Hk'; [|discriminate].
  apply lookup_seq in Hk' as [-> _]. cbn in Hm. injection Hm as <-.
  (* the sum over all columns, split into the unknowns and the anchor *)
  set (y := col _ k).
  assert (length y = nrows x) as Hy.
  { unfold y. rewrite length_col. unfold nrows. cbn [rows]. apply scatter_length. }
  rewrite dot_vec_nth, Hy.
  rewrite (Qsum_Permutation _ _
             (Permutation_map _ (seq_split_known (nrows x) a Ha))).
  rewrite map_app, Qsum_app. fold U.
  assert (map (fun j => nth j ri 0 * nth j y 0)%Q U
          = zip_with Qmult (map (fun j => nth j ri 0%Q) U) (col sol k)) as ->.
  { apply list_eq. intros t'. rewrite lookup_map, lookup_zip_with, lookup_map.
    unfold col. rewrite lookup_map.
    destruct (U !! t') as [j|] eqn:Hj; [|reflexivity]. cbn.
    destruct (lookup_lt_is_Some_2 (rows sol) t') as [s Hs].
    { apply lookup_lt_Some in Hj. unfold nrows in Hsoln. lia. }
    rewrite Hs. cbn. do 2 f_equal.
    apply nth_lookup_Some with (d := 0%Q). unfold y, col. cbn [rows].
    rewrite lookup_map.
    rewrite (scatter_lookup_idx _ _ _ t' j), Hs; try done.
    - apply range_minus_NoDup.
    - apply Forall_forall. intros j' Hj'. by apply range_minus_lt in Hj'. }
  assert (nth a y 0%Q = nth k xa 0%Q) as Hya.
  { apply nth_lookup_Some with (d := 0%Q). unfold y, col. cbn [rows].
    rewrite lookup_map, scatter_lookup_other, Hxa; [done|].
    unfold U, range_minus. rewrite list_elem_of_difference.
    intros [_ Hn]. apply Hn. by left. }
  cbn [map]. rewrite Hya. fold (dot_vec (map (fun j => nth j ri 0%Q) U) (col sol k)).
  rewrite Hmeq. rewrite Qsum_cons. change (Qsum []) with 0%Q. ring.
Qed.

Lemma key_index_of_NoDup (vertex : list (nat * vertex_attr)) (p i k : nat)
    (attr : vertex_attr) :
  NoDup (map fst vertex) -> vertex !! p = Some (k, attr) ->
  key_index_of vertex !! k = Some i -> i = p.
Proof.
  intros Hnd Hp Hi. apply key_index_of_lookup in Hi as [attr' Hi].
  eapply NoDup_lookup; [exact Hnd| |].
  - rewrite lookup_map, Hi. reflexivity.
  - rewrite lookup_map, Hp. reflexivity.
Qed.

Lemma scatter_Forall {A : Type} (P : A -> Prop) (x : list A) (idx : list nat)
    (vals : list A) :
  Forall P x -> Forall P vals -> Forall P (scatter x idx vals).
Proof.
  unfold scatter. revert x vals. induction idx as [|j idx IH]; intros x vals Hx Hv; [done|].
  destruct vals as [|v vals]; [done|]. cbn.
  apply Forall_cons in Hv as [Hv Hvals]. apply IH; [|done].
  by apply Forall_insert.
Qed.

(** With every key once, the coordinates written to the vertices are the
    rows of the array, in the order of the vertices. *)
Lemma write_xy_rows (vertex vertex' : list (nat * vertex_attr)) (xy : matrix) :
  NoDup (map fst vertex) ->
  mapM_result (write_xy (key_index_of vertex) xy) vertex = Ok vertex' ->
  nrows xy = length vertex ->
  Forall (fun r => length r = 2) (rows xy) ->
  rows (xy_of vertex') = rows xy.
Proof.
  intros Hnd Hw Hn Hr. apply mapM_result_Forall2 in Hw.
  pose proof (Forall2_length _ _ _ Hw) as Hlen.
  unfold xy_of. cbn [rows].
  apply (list_eq_same_length _ _ (length vertex)).
  - done.
  - rewrite length_map. lia.
  - intros p r1 r2 Hp H1 H2. rewrite lookup_map in H1.
    destruct (vertex' !! p) as [kv'|] eqn:Hkv'; [|discriminate]. injection H1 as <-.
    destruct (Forall2_lookup_r _ _ _ _ _ Hw Hkv') as ([k attr] & Hkv & Hwp).
    unfold write_xy in Hwp. cbn [fst snd] in Hwp.
    apply bind_Ok_inv in Hwp as (i & Hi & Hwp). apply getitem_Ok in Hi.
    apply bind_Ok_inv in Hwp as (r & Hri & Hwp). apply index_Ok in Hri.
    apply bind_Ok_inv in Hwp as (x & Hx & Hwp). apply index_Ok in Hx.
    apply bind_Ok_inv in Hwp as (y & Hy & Hwp). apply index_Ok in Hy.
    injection Hwp as <-. cbn.
    rewrite (key_index_of_NoDup _ _ _ _ _ Hnd Hkv Hi) in Hri.
    rewrite H2 in Hri. injection Hri as <-.
    assert (length r2 = 2) as Hl.
    { eapply Forall_forall in Hr; [exact Hr|]. by eapply list_elem_of_lookup_2. }
    destruct r2 as [|x' [|y' [|]]]; try discriminate. cbn in Hx, Hy. congruence.
Qed.

Lemma max_list_lt (l : list nat) (n : nat) :
  0 < n -> Forall (fun j => j < n) l -> max_list l < n.
Proof.
  intros Hn. induction 1 as [|x l Hx _ IH]; [exact Hn|].
  change (max_list (x :: l)) with (x `max` max_list l). lia.
Qed.

Lemma connectivity_matrix_ncols (edges : list (nat * nat)) (C : matrix) :
  connectivity_matrix edges = Ok C ->
  ncols C = S (max_list (map fst edges ++ map snd edges)).
Proof.
  unfold connectivity_matrix. destruct edges as [|e edges]; [discriminate|].
  by intros [= <-].
Qed.

Lemma ordered_edges_lt (force : ForceDiagram) (form : FormDiagram)
    (_edges : list (nat * nat)) :
  ForceDiagram.ordered_edges force form = Ok _edges ->
  Forall (fun j => j < length (force_vertex force)) (map fst _edges ++ map snd _edges).
Proof.
  unfold ForceDiagram.ordered_edges. intros H. apply mapM_result_Forall2 in H.
  assert (Forall (fun e => e.1 < length (force_vertex force) /\
                           e.2 < length (force_vertex force)) _edges) as Hall.
  { apply Forall_forall. intros e He. apply list_elem_of_lookup in He as [p Hp].
    destruct (Forall2_lookup_r _ _ _ _ _ H Hp) as (uv & _ & Huv).
    apply bind_Ok_inv in Huv as (i & Hi & Huv). apply getitem_Ok in Hi.
    apply bind_Ok_inv in Huv as (j & Hj & Huv). apply getitem_Ok in Hj.
    injection Huv as <-. cbn.
    split; eapply key_index_of_lt; eassumption. }
  apply Forall_app. split; apply Forall_forall; intros j Hj;
    apply list_elem_of_In, in_map_iff in Hj as (e & <- & He);
    apply list_elem_of_In in He; eapply Forall_forall in Hall; try exact He; tauto.
Qed.

(** The reduced system exists only if [A] has a row for every unknown and a
    column for the known entry. *)
Lemma reduced_system_bounds (A b x A11 b' : matrix) (a : nat) :
  reduced_system A b x [a] = Ok (A11, b') ->
  a < nrows x /\ a < ncols A /\ forall j, j < nrows x -> j <> a -> j < nrows A.
Proof.
  unfold reduced_system. cbv zeta. intros H.
  apply bind_Ok_inv in H as (Au & HAu & H).
  apply bind_Ok_inv in H as (A11' & HA11 & H).
  apply bind_Ok_inv in H as (A12 & HA12 & H).
  apply bind_Ok_inv in H as (bu & Hbu & H).
  apply bind_Ok_inv in H as (xk & Hxk & H).
  unfold take_rows in HAu, Hxk.
  apply bind_Ok_inv in HAu as (rs & Hrs & [= <-]).
  apply bind_Ok_inv in Hxk as (xs & Hxs & [= <-]).
  cbn [mapM_result] in Hxs.
  apply bind_Ok_inv in Hxs as (xa & Hxa & _). apply index_Ok, lookup_lt_Some in Hxa.
  unfold take_cols in HA12. cbn [ncols] in HA12.
  destruct (decide _) as [Hk|] in HA12; [|discriminate].
  apply Forall_cons in Hk as [Hk _].
  repeat split; try done.
  intros j Hj Hne.
  assert (j ∈ range_minus (nrows x) [a]) as Hin.
  { unfold range_minus. apply list_elem_of_difference. split; [apply elem_of_seq; lia|].
    intros Hin. apply list_elem_of_In in Hin. destruct Hin as [?|[]]. congruence. }
  apply list_elem_of_lookup in Hin as [t Ht].
  destruct (mapM_result_lookup _ _ _ _ _ Hrs Ht) as (r & _ & Hr).
  by apply index_Ok, lookup_lt_Some in Hr.
Qed.

(** A call of [force_update_from_form] that returns leaves the force diagram
    in equilibrium with the form diagram wherever it solved: if the solver
    returned a solution of the reduced system, the coordinates [xy'] of the
    updated force diagram satisfy [(C^t C) xy' = C^t Q uv] in the row of every
    vertex but the anchor.  The keys of the vertices are those of a dict: each
    occurs once. *)
Theorem force_update_from_form_equilibrium
    (spsolve : matrix -> matrix -> matrix)
    (force force' : ForceDiagram) (form : FormDiagram) :
  force_update_from_form spsolve force form = Ok force' ->
  NoDup (ForceDiagram.vertices force) ->
  exists A b anchor A11 b',
    reciprocal_system force form = Ok (A, b) /\
    ForceDiagram.key_index force !! ForceDiagram.anchor force = Some anchor /\
    reduced_system A b (ForceDiagram.xy force) [anchor] = Ok (A11, b') /\
    (solves A11 (spsolve A11 b') b' ->
     exists P,
       dot A (ForceDiagram.xy force') = Ok P /\
       forall i r rb,
         i <> anchor -> rows P !! i = Some r -> rows b !! i = Some rb ->
         Forall2 Qeq r rb).
Proof.
  unfold force_update_from_form. intros H Hnd.
  apply bind_Ok_inv in H as (edges & Hedges & H).
  apply bind_Ok_inv in H as (C & HC & H).
  apply bind_Ok_inv in H as (uv & Huv & H).
  apply bind_Ok_inv in H as (anchor & Hanchor & H). apply getitem_Ok in Hanchor.
  apply bind_Ok_inv in H as (_edges & H_edges & H).
  apply bind_Ok_inv in H as (_C & H_C & H).
  apply bind_Ok_inv in H as (_CtC & H_CtC & H).
  apply bind_Ok_inv in H as (_CtQ & H_CtQ & H).
  apply bind_Ok_inv in H as (_CtQuv & H_CtQuv & H).
  apply bind_Ok_inv in H as (_xy & H_xy & H).
  apply bind_Ok_inv in H as (vertex' & Hvertex & H).
  injection H as <-.
  apply spsolve_with_known_reduced in H_xy as (A11 & b' & Hred & Hsoln & Hsolr & H_xy).
  exists _CtC, _CtQuv, anchor, A11, b'. split; [|split; [done|split; [done|]]].
  { unfold reciprocal_system.
    by rewrite Hedges, bind_Ok, HC, bind_Ok, Huv, bind_Ok, H_edges, bind_Ok, H_C,
      bind_Ok, H_CtC, bind_Ok, H_CtQ, bind_Ok, H_CtQuv, bind_Ok. }
  intros Hsolves.
  set (n := length (force_vertex force)).
  assert (nrows (ForceDiagram.xy force) = n) as Hnx.
  { unfold nrows, ForceDiagram.xy, xy_of. cbn [rows]. apply length_map. }
  (* the shapes *)
  pose proof (dot_shape _ _ _ H_CtC) as [HcA HrA].
  pose proof (dot_shape _ _ _ H_CtQuv) as [Hcb _].
  pose proof (dot_shape _ _ _ Huv) as [Hcuv _].
  pose proof (dot_rows_length _ _ _ H_CtQuv) as Hbrows.
  rewrite Hcb, Hcuv in Hbrows. cbn [FormDiagram.xy xy_of ncols] in Hbrows.
  assert (nrows _CtC = ncols _C) as HrA'.
  { rewrite HrA. unfold nrows, transpose. cbn [rows]. by rewrite length_map, length_seq. }
  destruct (reduced_system_bounds _ _ _ _ _ _ Hred) as (Ha & HaA & HU).
  rewrite Hnx in Ha, HU.
  assert (ncols _C = n) as Hn_C.
  { apply Nat.le_antisymm.
    - apply ordered_edges_lt in H_edges. fold n in H_edges.
      rewrite (connectivity_matrix_ncols _ _ H_C).
      apply (max_list_lt _ n) in H_edges; lia.
    - destruct (decide (n - 1 = anchor)) as [Heq|Hne].
      + rewrite HcA in HaA. lia.
      + specialize (HU (n - 1) ltac:(lia) Hne). lia. }
  assert (rows (ForceDiagram.xy {| force_vertex := vertex'; force_edge := force_edge force;
                                    force_anchor := force_anchor force |}) = rows _xy) as Hrows.
  { unfold ForceDiagram.xy. cbn [force_vertex].
    apply (write_xy_rows (force_vertex force)); try done.
    - rewrite H_xy. unfold nrows. cbn [rows]. rewrite scatter_length.
      apply length_map.
    - rewrite H_xy. cbn [rows]. apply scatter_Forall.
      + apply Forall_forall. intros r Hr.
        apply list_elem_of_In, in_map_iff in Hr as (kv & <- & _). done.
      + exact Hsolr. }
  assert (ForceDiagram.xy {| force_vertex := vertex'; force_edge := force_edge force;
                             force_anchor := force_anchor force |} = _xy) as Hxy'.
  { rewrite H_xy in Hrows |- *. unfold ForceDiagram.xy, xy_of in *. cbn [rows] in Hrows.
    cbn [ncols]. by rewrite Hrows. }
  rewrite Hxy'.
  assert (nrows _xy = n) as Hn_xy.
  { rewrite H_xy. unfold nrows. cbn [rows]. rewrite scatter_length. apply length_map. }
  unfold dot. rewrite decide_True by lia. eexists. split; [reflexivity|].
  cbn [rows]. intros i r rb Hia Hr Hrb.
  rewrite lookup_map in Hr.
  destruct (rows _CtC !! i) as [ri|] eqn:Hri; [|discriminate]. injection Hr as <-.
  assert (i < n) as Hi.
  { apply lookup_lt_Some in Hri. unfold nrows in HrA'. lia. }
  assert (length rb = 2) as Hrbl.
  { eapply Forall_forall in Hbrows; [exact Hbrows|]. by eapply list_elem_of_lookup_2. }
  pose proof (reduced_system_solution _ _ _ _ _ _ _ Hred Hbrows Hsoln Hsolr Hsolves)
    as Hsol.
  rewrite <- H_xy in Hsol. rewrite Hnx in Hsol.
  assert (ncols _xy = 2) as Hc_xy by (by rewrite H_xy).
  unfold transpose. cbn [rows]. rewrite Hc_xy. cbn [seq map].
  destruct rb as [|rb0 [|rb1 [|]]]; try discriminate.
  constructor; [|constructor; [|constructor]].
  - apply (Hsol i 0 ri [rb0; rb1]); try done. cbn. lia.
  - apply (Hsol i 1 ri [rb0; rb1]); try done. cbn. lia.
Qed.

Lemma force_update_from_form_equilibrium_witness :
  exists force',
    force_update_from_form spsolve_exact tripod_force tripod = Ok force' /\
    exists A b anchor A11 b',
      reciprocal_system tripod_force tripod = Ok (A, b) /\
      ForceDiagram.key_index tripod_force !! ForceDiagram.anchor tripod_force
      = Some anchor /\
      reduced_system A b (ForceDiagram.xy tripod_force) [anchor] = Ok (A11, b') /\
      (solves A11 (spsolve_exact A11 b') b' ->
       exists P,
         dot A (ForceDiagram.xy force') = Ok P /\
         forall i r rb,
           i <> anchor -> rows P !! i = Some r -> rows b !! i = Some rb ->
           Forall2 Qeq r rb).
Proof.
  eexists. split; [vm_compute; reflexivity|].
  apply (force_update_from_form_equilibrium spsolve_exact tripod_force).
  - vm_compute. reflexivity.
  - apply (bool_decide_unpack (NoDup (ForceDiagram.vertices tripod_force))).
    vm_compute. exact I.
Defined.

(** The exact solver solves the reduced system of the tripod. *)
Example tripod_reduced_system_solved :
  exists A b A11 b',
    reciprocal_system tripod_force tripod = Ok (A, b) /\
    reduced_system A b (ForceDiagram.xy tripod_force) [0] = Ok (A11, b') /\
    solves A11 (spsolve_exact A11 b') b'.
Proof.
  do 4 eexists. split; [vm_compute; reflexivity|]. split; [vm_compute; reflexivity|].
  eexists. split; [vm_compute; reflexivity|].
  unfold mat_eq. cbn [rows]. repeat constructor.
Qed.
